(** * resolve_overlaps.py: weighted interval scheduling over GFF regions

    A shallow embedding of [src/resolve_overlaps.py] and the properties of
    its scheduling engine ([Resolver.get_partial]), block splitting
    ([Resolver.resolve]) and record parsing ([Region.__init__],
    [Resolver.read_input]).

    Python integers are unbounded: they are [Z].  List positions are [nat].
    Strings are [string] (ASCII text of a GFF file).  Exceptions are the
    [Raise] branch of [result]. *)

From Stdlib Require Import ZArith List String Ascii Lia Bool.
From stdpp Require Import base option list gmap strings sorting.

Local Open Scope Z_scope.

(** ** Exceptions *)

Inductive exn : Type :=
| IndexError   (* list index out of range *)
| TypeError    (* defaultdict(Sequence): the factory called with no argument *)
| ValueError.  (* int() on a token that is not an integer literal *)

Inductive result (A : Type) : Type :=
| Ok (a : A)
| Raise (e : exn).
Arguments Ok {A} a.
Arguments Raise {A} e.

Definition rbind {A B : Type} (m : result A) (k : A → result B) : result B :=
  match m with
  | Ok a => k a
  | Raise e => Raise e
  end.

Notation "x ←! m ; k" := (rbind m (λ x, k))
  (at level 20, m at level 100, k at level 200, only parsing).

(** [l[i]] for an index that is never negative here. *)
Definition getitem {A : Type} (l : list A) (i : nat) : result A :=
  match l !! i with
  | Some a => Ok a
  | None => Raise IndexError
  end.

(** ** str.split() and int()

    The text of a GFF file is ASCII.  [str.split()] without argument cuts at
    runs of white space and yields no empty token. *)

Definition is_space (c : ascii) : bool :=
  let n := nat_of_ascii c in
  ((9 <=? n)%nat && (n <=? 13)%nat) || ((28 <=? n)%nat && (n <=? 32)%nat).

(** [cur] is the token being read, if one has begun. *)
Fixpoint split_from (cur : option string) (s : string) : list string :=
  match s with
  | EmptyString =>
      match cur with
      | Some tok => [tok]
      | None => []
      end
  | String c s' =>
      if is_space c then
        match cur with
        | Some tok => tok :: split_from None s'
        | None => split_from None s'
        end
      else split_from (Some (String.append (default EmptyString cur) (String c EmptyString))) s'
  end.

Definition split (s : string) : list string := split_from None s.

Definition digit_of (c : ascii) : option Z :=
  let n := nat_of_ascii c in
  if ((48 <=? n)%nat && (n <=? 57)%nat) then Some (Z.of_nat n - 48) else None.

(** Decimal digits, where single underscores may stand between digits.
    [after_digit] tells whether the previous character was a digit. *)
Fixpoint int_digits (acc : Z) (after_digit : bool) (s : string) : option Z :=
  match s with
  | EmptyString => if after_digit then Some acc else None
  | String c s' =>
      match digit_of c with
      | Some d => int_digits (10 * acc + d) true s'
      | None =>
          if Ascii.eqb c "_"%char && after_digit
          then int_digits acc false s'
          else None
      end
  end.

(** [int(tok)] on a token that holds no white space. *)
Definition py_int (tok : string) : result Z :=
  let signed :=
    match tok with
    | String "-"%char s' => Z.opp <$> int_digits 0 false s'
    | String "+"%char s' => int_digits 0 false s'
    | _ => int_digits 0 false tok
    end in
  match signed with
  | Some z => Ok z
  | None => Raise ValueError
  end.

(** ** class Region *)

Module Region.
Record t : Type := mk {
  line : string;
  rid : string;
  start : Z;
  finish : Z;
  weight : Z
}.

(** [__init__] *)
Definition init (line : string) : result t :=
  let parts := split line in
  p0 ←! getitem parts 0;
  p2 ←! getitem parts 2;
  p6 ←! getitem parts 6;
  p3 ←! getitem parts 3;
  start ←! py_int p3;
  p4 ←! getitem parts 4;
  finish ←! py_int p4;
  p5 ←! getitem parts 5;
  weight ←! py_int p5;
  Ok (mk line (String.append (String.append p0 p2) p6) start finish weight).
End Region.

(** ** class Sequence *)

Module Sequence.
Record t : Type := mk {
  weight : Z;
  finish : Z;
  regs : list Region.t
}.

(** [__add__]: the new tuple is the old regs followed by [region]. *)
Definition add (self : t) (region : Region.t) : t :=
  mk (weight self + Region.weight region)
     (Region.finish region)
     (regs self ++ [region]).

(** [__gt__] *)
Definition gt (self other : t) : bool := other.(weight) <? self.(weight).
End Sequence.

(** The builtin [max(a, b)]: the first argument is kept unless the second
    one is strictly greater (CPython compares [item > maxitem]). *)
Definition py_max (a b : Sequence.t) : Sequence.t :=
  if Sequence.gt b a then b else a.

(** ** list.sort(key=...): a stable sort

    [list.sort] is stable; the stable sort of a list by a key is unique, and
    insertion from the right computes it: an element goes before the first
    element of the sorted tail whose key is not smaller. *)

Section StableSort.
Context {A : Type} (key : A → Z).

Fixpoint insert_by (x : A) (l : list A) : list A :=
  match l with
  | [] => [x]
  | y :: l' => if key x <=? key y then x :: y :: l' else y :: insert_by x l'
  end.

Fixpoint sort_by (l : list A) : list A :=
  match l with
  | [] => []
  | x :: l' => insert_by x (sort_by l')
  end.

Definition key_le (a b : A) : Prop := key a <= key b.
End StableSort.

(** ** bisect.bisect_left (the loop of Lib/bisect.py, lo = 0, hi = len(a))

    [hi - lo] decreases at every iteration, so [length a] iterations are
    enough ([bisect_loop_fuel] below shows that more changes nothing). *)

Fixpoint bisect_loop (fuel : nat) (a : list Z) (x : Z) (lo hi : nat) : nat :=
  match fuel with
  | O => lo
  | S fuel' =>
      if (lo <? hi)%nat then
        let mid := ((lo + hi) / 2)%nat in
        if nth mid a 0 <? x
        then bisect_loop fuel' a x (mid + 1)%nat hi
        else bisect_loop fuel' a x lo mid
      else lo
  end.

Definition bisect_left (a : list Z) (x : Z) : nat :=
  bisect_loop (length a) a x 0%nat (length a).

(** ** Resolver.get_partial *)

(** [sequences[k]] on [defaultdict(Sequence)]: a missing key calls
    [Sequence()] without its three arguments, which raises [TypeError]. *)
Definition seq_getitem (sequences : gmap nat Sequence.t) (k : nat)
  : result Sequence.t :=
  match sequences !! k with
  | Some s => Ok s
  | None => Raise TypeError
  end.

(** The predecessor index of the loop body, [bisect_left(finish, start[i - 1])]. *)
Definition pred_index (routes : list Region.t) (i : nat) : result nat :=
  x ←! getitem (Region.start <$> routes) (i - 1);
  Ok (bisect_left (Region.finish <$> routes) x).

(** One iteration of [for i in range(2, len(routes) + 1)]; [routes] is the
    list already sorted by finish. *)
Definition dp_step (routes : list Region.t) (st : result (gmap nat Sequence.t))
    (i : nat) : result (gmap nat Sequence.t) :=
  sequences ←! st;
  p ←! pred_index routes i;
  sp ←! seq_getitem sequences p;
  r ←! getitem routes (i - 1);
  let new_seq := Sequence.add sp r in
  prev ←! seq_getitem sequences (i - 1);
  Ok (<[i := py_max prev new_seq]> sequences).

(** The table after the initial conditions. *)
Definition dp_init (routes : list Region.t) : result (gmap nat Sequence.t) :=
  let sequences := <[0%nat := Sequence.mk 0 0 []]> (∅ : gmap nat Sequence.t) in
  r0 ←! getitem routes 0;
  Ok (<[1%nat := Sequence.mk (Region.weight r0) (Region.finish r0) [r0]]> sequences).

(** The table after the loop has run up to and including [i = m]
    ([range(2, m + 1)]). *)
Definition dp_run (routes : list Region.t) (m : nat) : result (gmap nat Sequence.t) :=
  foldl (dp_step routes) (dp_init routes) (seq 2 (m - 1)).

(** The whole table of a call, on the caller's (unsorted) block. *)
Definition dp_table (block : list Region.t) : result (gmap nat Sequence.t) :=
  let routes := sort_by Region.finish block in
  dp_run routes (length routes).

(** [sequences[len(routes)]] at the end of the call. *)
Definition best_sequence (block : list Region.t) : result Sequence.t :=
  sequences ←! dp_table block;
  seq_getitem sequences (length (sort_by Region.finish block)).

(** What a call iterates over and prints, and the pair it returns.
    [selected] is [sequences[len(routes)].regs], the tuple both loops at the
    end of the function walk; [printed] is what reaches standard output.
    [debug] is the module constant (False in the source). *)
Record partial : Type := mkPartial {
  selected : list Region.t;
  printed : list string;
  top_weight_tmp : Z;
  tmp_count : nat
}.

Definition get_partial (debug : bool) (block : list Region.t) : result partial :=
  best ←! best_sequence block;
  Ok (mkPartial
        (Sequence.regs best)
        (if debug then [] else Region.line <$> Sequence.regs best)
        (Sequence.weight best)
        (if debug then length (Sequence.regs best) else 0%nat)).

(** ** Resolver.resolve, for one group ([data[rid]])

    The loop is written over the engine it calls, so that statements can
    speak about which blocks reach the engine. *)

Record group_state : Type := mkState {
  sequences : list Region.t;      (* the block being collected *)
  top_weight : Z;
  most_far : Z;
  count : nat;
  chosen : list Region.t;         (* regions selected so far, in print order *)
  output : list string            (* lines printed so far *)
}.

Section Resolve.
Variable engine : list Region.t → result partial.

(** [top_weight_tmp, tmp_count = self.get_partial(sequences)] and the two
    additions that follow it. *)
Definition call_engine (s : group_state) : result group_state :=
  p ←! engine (sequences s);
  Ok (mkState (sequences s)
              (top_weight s + top_weight_tmp p)
              (most_far s)
              (count s + tmp_count p)
              (chosen s ++ selected p)
              (output s ++ printed p)).

(** The body of [for region in data[rid]]. *)
Definition group_step (st : result group_state) (region : Region.t)
  : result group_state :=
  s ←! st;
  s1 ←! (if (0 <? length (sequences s))%nat && (most_far s <? Region.start region)
         then s' ←! call_engine s;
              Ok (mkState [] (top_weight s') (most_far s') (count s')
                          (chosen s') (output s'))
         else Ok s);
  Ok (mkState (sequences s1 ++ [region])
              (top_weight s1)
              (Z.max (Region.finish region) (most_far s1))
              (count s1)
              (chosen s1)
              (output s1)).

Definition resolve_group_with (is_sorted : bool) (group : list Region.t)
  : result group_state :=
  let group := if is_sorted then group else sort_by Region.start group in
  s ←! foldl group_step (Ok (mkState [] 0 0 0%nat [] [])) group;
  call_engine s.
End Resolve.

Definition resolve_group (debug is_sorted : bool) (group : list Region.t)
  : result group_state :=
  resolve_group_with (get_partial debug) is_sorted group.

(** ** Resolver.read_input

    The file is the list of its lines.  [data] is a [defaultdict(list)]; a
    dict is walked in the order in which its keys were first inserted, so it
    is a list of (key, regions) pairs in that order. *)

Fixpoint dict_append (data : list (string * list Region.t)) (k : string)
    (f : Region.t) : list (string * list Region.t) :=
  match data with
  | [] => [(k, [f])]
  | (k', l) :: data' =>
      if String.eqb k' k then (k', l ++ [f]) :: data'
      else (k', l) :: dict_append data' k f
  end.

Definition starts_with_hash (line : string) : bool :=
  match line with
  | String c _ => Ascii.eqb c "#"%char
  | EmptyString => false
  end.

Definition read_step (st : result (list (string * list Region.t)))
    (line : string) : result (list (string * list Region.t)) :=
  data ←! st;
  if (String.length line <? 2)%nat || starts_with_hash line then Ok data
  else f ←! Region.init line;
       Ok (dict_append data (Region.rid f) f).

Definition read_input (file : list string)
  : result (list (string * list Region.t)) :=
  foldl read_step (Ok []) file.

(** ** Resolver.resolve

    The result is, per key in the order of the dict, the state at the end
    of the group.  The two header lines and the debug summary lines (the
    date of the day, a formatted number) are left out. *)

Fixpoint resolve_groups (debug is_sorted : bool)
    (data : list (string * list Region.t))
  : result (list (string * group_state)) :=
  match data with
  | [] => Ok []
  | (rid, group) :: data' =>
      st ←! resolve_group debug is_sorted group;
      rest ←! resolve_groups debug is_sorted data';
      Ok ((rid, st) :: rest)
  end.

Definition resolve (debug is_sorted : bool) (file : list string)
  : result (list (string * group_state)) :=
  data ←! read_input file;
  resolve_groups debug is_sorted data.

(** ** Specification vocabulary *)

Definition total_weight (l : list Region.t) : Z :=
  foldr (λ r acc, Region.weight r + acc) 0 l.

(** [a] ends strictly before [b] begins. *)
Definition before (a b : Region.t) : Prop := Region.finish a < Region.start b.

(** Two closed intervals share no coordinate. *)
Definition apart (a b : Region.t) : Prop := before a b ∨ before b a.

(** Non-overlap as the specification words it: a shared end point is allowed. *)
Definition apart_or_touching (a b : Region.t) : Prop :=
  Region.finish a <= Region.start b ∨ Region.finish b <= Region.start a.

Global Instance before_dec a b : Decision (before a b) :=
  Z_lt_dec (Region.finish a) (Region.start b).

(** [R] holds between every element and every later element. *)
Fixpoint pairwise {A : Type} (R : A → A → Prop) (l : list A) : Prop :=
  match l with
  | [] => True
  | x :: l' => Forall (R x) l' ∧ pairwise R l'
  end.

(** [w] is the largest total weight of a sub-collection of [block] (elements
    taken by position, order kept) whose members are pairwise [R]-related. *)
Definition is_max_weight (R : Region.t → Region.t → Prop)
    (block : list Region.t) (w : Z) : Prop :=
  (∃ sub, sub `sublist_of` block ∧ pairwise R sub ∧ total_weight sub = w) ∧
  (∀ sub, sub `sublist_of` block → pairwise R sub → total_weight sub <= w).

Definition well_formed (r : Region.t) : Prop := Region.start r <= Region.finish r.

(** What the table entry [j] has to be: chosen among the first [j] routes,
    every member ending before the next begins, weight field consistent. *)
Definition feasible (routes : list Region.t) (j : nat) (s : Sequence.t) : Prop :=
  Sequence.regs s `sublist_of` take j routes ∧
  pairwise before (Sequence.regs s) ∧
  Sequence.weight s = total_weight (Sequence.regs s).



Definition ascending (a : list Z) : Prop :=
  ∀ i j, (i <= j < length a)%nat → nth i a 0 <= nth j a 0.

(** The DP table holds exactly the entries [0..m], built by the recurrence. *)
Definition S0 : Sequence.t := Sequence.mk 0 0 [].
Definition S1 (r0 : Region.t) : Sequence.t :=
  Sequence.mk (Region.weight r0) (Region.finish r0) [r0].

Definition entry_ok (routes : list Region.t) (T : gmap nat Sequence.t) (i : nat)
  : Prop :=
  ∃ p sp r prev,
    pred_index routes i = Ok p ∧ (p < i)%nat ∧
    T !! p = Some sp ∧ routes !! (i - 1)%nat = Some r ∧
    T !! (i - 1)%nat = Some prev ∧
    T !! i = Some (py_max prev (Sequence.add sp r)).

Definition table_ok (routes : list Region.t) (m : nat) (T : gmap nat Sequence.t)
  : Prop :=
  (∀ j, is_Some (T !! j) ↔ (j <= m)%nat) ∧
  T !! 0%nat = Some S0 ∧
  (∃ r0, routes !! 0%nat = Some r0 ∧ T !! 1%nat = Some (S1 r0)) ∧
  (∀ i, (2 <= i <= m)%nat → entry_ok routes T i).

(** ** Sample blocks *)

(** Two regions that share the coordinate 5. *)
Definition touching_first : Region.t :=
  Region.mk "chr1 src gene 1 5 10 + ." "chr1gene+" 1 5 10.
Definition touching_second : Region.t :=
  Region.mk "chr1 src gene 5 8 10 + ." "chr1gene+" 5 8 10.
Definition touching_block : list Region.t := [touching_first; touching_second].

(** The single region of negative weight. *)
Definition negative_region : Region.t :=
  Region.mk "chr1 src gene 1 1 -5 + ." "chr1gene+" 1 1 (-5).

(** A region of negative weight that ends first, and one after it. *)
Definition negative_first : Region.t :=
  Region.mk "chr1 src gene 1 2 -5 + ." "chr1gene+" 1 2 (-5).
Definition positive_later : Region.t :=
  Region.mk "chr1 src gene 3 4 10 + ." "chr1gene+" 3 4 10.

(** A group that is not in start order, as the pre-sorted flag lets through. *)
Definition unsorted_first : Region.t :=
  Region.mk "chr1 src gene 1 5 10 + ." "chr1gene+" 1 5 10.
Definition unsorted_second : Region.t :=
  Region.mk "chr1 src gene 7 8 1 + ." "chr1gene+" 7 8 1.
Definition unsorted_third : Region.t :=
  Region.mk "chr1 src gene 2 3 10 + ." "chr1gene+" 2 3 10.
Definition unsorted_group : list Region.t :=
  [unsorted_first; unsorted_second; unsorted_third].

(** Two records of one group with weights 5 and 0, in two blocks. *)
Definition zero_first : Region.t :=
  Region.mk "chr1 src gene 1 2 5 + ." "chr1gene+" 1 2 5.
Definition zero_second : Region.t :=
  Region.mk "chr1 src gene 3 4 0 + ." "chr1gene+" 3 4 0.

(** Two records that differ in their fifth field only. *)
Definition line_finish_5 : string := "chr1 src gene 1 5 10 + .".
Definition line_finish_9 : string := "chr1 src gene 1 9 10 + .".

(** Two records whose sequence id and feature type differ and whose keys
    coincide. *)
Definition line_geneA : string := "chr1 src geneA 1 5 10 + .".
Definition line_chr1gene : string := "chr1gene src A 3 8 12 + .".
Definition region_geneA : Region.t :=
  Region.mk line_geneA "chr1geneA+" 1 5 10.
Definition region_chr1gene : Region.t :=
  Region.mk line_chr1gene "chr1geneA+" 3 8 12.

(** The table the engine builds for [touching_block]. *)
Definition touching_table : gmap nat Sequence.t :=
  <[2%nat := S1 touching_first]>
    (<[1%nat := S1 touching_first]> (<[0%nat := S0]> ∅)).

(** ** Vocabulary for the further properties *)

Global Instance well_formed_dec r : Decision (well_formed r) :=
  Z_le_dec (Region.start r) (Region.finish r).

(** The lines [read_input] passes over: shorter than two characters, or
    beginning with the comment mark. *)
Definition skipped (line : string) : bool :=
  (String.length line <? 2)%nat || starts_with_hash line.

(** [data.get(k)] on a dict kept as a list of pairs. *)
Fixpoint dict_get {B : Type} (data : list (string * B)) (k : string) : option B :=
  match data with
  | [] => None
  | (k', v) :: data' => if String.eqb k' k then Some v else dict_get data' k
  end.

(** A list as a dict value: a key is present only with a non-empty list. *)
Definition group_or_absent (l : list Region.t) : option (list Region.t) :=
  match l with
  | [] => None
  | _ => Some l
  end.

(** The characters of a string. *)
Fixpoint chars (s : string) : list ascii :=
  match s with
  | EmptyString => []
  | String c s' => c :: chars s'
  end.

(** A block with a region that ends before it starts. *)
Definition backwards_first : Region.t :=
  Region.mk "chr1 src gene 1 1 3 + ." "chr1gene+" 1 1 3.
Definition backwards_second : Region.t :=
  Region.mk "chr1 src gene 5 2 4 + ." "chr1gene+" 5 2 4.
Definition backwards_block : list Region.t := [backwards_first; backwards_second].

(** Two regions that follow one another, given out of order. *)
Definition chain_block : list Region.t :=
  [unsorted_second; unsorted_third].

(** A file with a comment, an empty line and two groups. *)
Definition sample_file : list string :=
  ["##gff-version 3"; ""; line_geneA; "chr2 src gene 1 5 10 + ."; line_chr1gene].

(** A file whose third record has a score that is no integer. *)
Definition broken_file : list string :=
  ["# header"; line_geneA; "chr1 src gene 1 5 . + ."; "chr1 src gene"].

(** A group with a region that ends before it starts, inside a block. *)
Definition backwards_group : list Region.t :=
  [Region.mk "chr1 src gene 1 1 3 + ." "chr1gene+" 1 1 3;
   Region.mk "chr1 src gene 1 9 3 + ." "chr1gene+" 1 9 3;
   Region.mk "chr1 src gene 3 2 3 + ." "chr1gene+" 3 2 3].

(** * Properties *)

(** ** The stable sort *)

Section StableSortFacts.
Context {A : Type} (key : A → Z).

Lemma insert_by_Permutation x l : insert_by key x l ≡ₚ x :: l.
Proof.
  induction l as [|y l IH]; simpl; [done|].
  destruct (key x <=? key y); [done|].
  rewrite IH. apply Permutation_swap.
Qed.

Lemma sort_by_Permutation l : sort_by key l ≡ₚ l.
Proof.
  induction l as [|x l IH]; simpl; [done|].
  by rewrite insert_by_Permutation, IH.
Qed.

Lemma sort_by_length l : length (sort_by key l) = length l.
Proof. by rewrite sort_by_Permutation. Qed.

Lemma insert_by_sorted x l :
  StronglySorted (key_le key) l → StronglySorted (key_le key) (insert_by key x l).
Proof.
  induction 1 as [|y l Hs IH Hy]; simpl.
  - repeat constructor.
  - destruct (Z.leb_spec (key x) (key y)) as [Hle|Hlt].
    + constructor; [by constructor|].
      constructor; [done|].
      eapply Forall_impl; [exact Hy|]. unfold key_le. intros; simpl in *. lia.
    + constructor; [done|].
      rewrite insert_by_Permutation. constructor; [unfold key_le; lia|done].
Qed.

Lemma sort_by_sorted l : StronglySorted (key_le key) (sort_by key l).
Proof.
  induction l as [|x l IH]; simpl; [constructor|by apply insert_by_sorted].
Qed.

Lemma sorted_lookup_le l i j a b :
  StronglySorted (key_le key) l → l !! i = Some a → l !! j = Some b →
  (i <= j)%nat → key a <= key b.
Proof.
  intros Hs. revert i j. induction Hs as [|y l Hs IH Hy]; intros i j Hi Hj Hij.
  - by rewrite lookup_nil in Hi.
  - destruct i as [|i], j as [|j]; simpl in *; simplify_eq; try lia.
    + rewrite Forall_forall in Hy. apply Hy. by eapply list_elem_of_lookup_2.
    + eapply IH; eauto. lia.
Qed.

(** The sort is stable: regions of equal key keep their order. *)
Lemma insert_by_stable k x l :
  filter (λ y, key y = k) (insert_by key x l) = filter (λ y, key y = k) (x :: l).
Proof.
  induction l as [|y l IH]; simpl; [done|].
  destruct (Z.leb_spec (key x) (key y)) as [Hle|Hlt]; [done|].
  rewrite filter_cons, IH, !filter_cons.
  repeat case_decide; try done; lia.
Qed.

Lemma sort_by_stable k l :
  filter (λ y, key y = k) (sort_by key l) = filter (λ y, key y = k) l.
Proof.
  induction l as [|x l IH]; simpl; [done|].
  by rewrite insert_by_stable, !filter_cons, IH.
Qed.

(** A list that is already in key order is left as it is. *)
Lemma sort_by_sorted_id l : StronglySorted (key_le key) l → sort_by key l = l.
Proof.
  induction 1 as [|y l Hs IH Hy]; simpl; [done|].
  rewrite IH. destruct l as [|z l]; simpl; [done|].
  apply Forall_cons in Hy as [Hyz _]. unfold key_le in Hyz.
  destruct (Z.leb_spec (key y) (key z)); [done|lia].
Qed.
End StableSortFacts.

(** ** bisect_left on a sorted list *)

Lemma half_between lo hi :
  (lo < hi)%nat → (lo <= (lo + hi) / 2 < hi)%nat.
Proof.
  intros H. pose proof (Nat.div_mod_eq (lo + hi) 2) as E.
  pose proof (Nat.mod_upper_bound (lo + hi) 2). lia.
Qed.

Lemma bisect_loop_spec a x :
  ascending a →
  ∀ fuel lo hi,
    (hi - lo <= fuel)%nat → (lo <= hi <= length a)%nat →
    (∀ k, (k < lo)%nat → nth k a 0 < x) →
    (∀ k, (hi <= k < length a)%nat → x <= nth k a 0) →
    let r := bisect_loop fuel a x lo hi in
    (lo <= r <= hi)%nat ∧
    (∀ k, (k < r)%nat → nth k a 0 < x) ∧
    (∀ k, (r <= k < length a)%nat → x <= nth k a 0).
Proof.
  intros Hasc. induction fuel as [|fuel IH]; intros lo hi Hfuel Hb Hlo Hhi;
    cbn [bisect_loop].
  - assert (lo = hi) as -> by lia. auto with lia.
  - destruct (Nat.ltb_spec lo hi) as [Hlt|Hge].
    2:{ assert (lo = hi) as -> by lia. auto with lia. }
    pose proof (half_between lo hi Hlt) as Hmid.
    set (mid := ((lo + hi) / 2)%nat) in *.
    destruct (Z.ltb_spec (nth mid a 0) x) as [Hx|Hx].
    + destruct (IH (mid + 1)%nat hi) as (?&?&?); try lia.
      * intros k Hk. specialize (Hasc k mid). lia.
      * done.
      * split_and!; first [lia|done].
    + destruct (IH lo mid) as (?&?&?); try lia.
      * done.
      * intros k Hk. specialize (Hasc mid k). lia.
      * split_and!; first [lia|done].
Qed.

Lemma bisect_left_spec a x :
  ascending a →
  let r := bisect_left a x in
  (r <= length a)%nat ∧
  (∀ k, (k < r)%nat → nth k a 0 < x) ∧
  (∀ k, (r <= k < length a)%nat → x <= nth k a 0).
Proof.
  intros Hasc. unfold bisect_left.
  destruct (bisect_loop_spec a x Hasc (length a) 0%nat (length a)) as (?&?&?);
    [lia|lia|intros k Hk; lia|intros k Hk; lia|].
  split_and!; first [lia|done].
Qed.

(** Iterations beyond [hi - lo] are never used. *)
Lemma bisect_loop_fuel a x fuel fuel' lo hi :
  (hi - lo <= fuel)%nat → (hi - lo <= fuel')%nat →
  bisect_loop fuel a x lo hi = bisect_loop fuel' a x lo hi.
Proof.
  revert fuel' lo hi. induction fuel as [|fuel IH]; intros fuel' lo hi H1 H2.
  - destruct fuel'; cbn [bisect_loop]; [done|].
    destruct (Nat.ltb_spec lo hi); [lia|done].
  - destruct fuel' as [|fuel']; cbn [bisect_loop].
    + destruct (Nat.ltb_spec lo hi); [lia|done].
    + destruct (Nat.ltb_spec lo hi) as [Hlt|]; [|done].
      pose proof (half_between lo hi Hlt).
      destruct (nth _ a 0 <? x); apply IH; lia.
Qed.

(** ** The error monad *)

Lemma rbind_Ok {A B : Type} (m : result A) (k : A → result B) b :
  rbind m k = Ok b ↔ ∃ a, m = Ok a ∧ k a = Ok b.
Proof.
  destruct m as [a|e]; simpl; split.
  - eauto.
  - by intros (a'&[= ->]&?).
  - done.
  - by intros (?&?&?).
Qed.

Lemma getitem_Ok {A : Type} (l : list A) i a : getitem l i = Ok a ↔ l !! i = Some a.
Proof. unfold getitem. destruct (l !! i); split; congruence. Qed.

Lemma seq_getitem_Ok (T : gmap nat Sequence.t) k s :
  seq_getitem T k = Ok s ↔ T !! k = Some s.
Proof. unfold seq_getitem. destruct (T !! k); split; congruence. Qed.

Ltac inv_bind H :=
  repeat match type of H with
  | rbind _ _ = Ok _ =>
      let a := fresh "a" in let Ha := fresh "Ha" in
      apply rbind_Ok in H as (a & Ha & H)
  end.

(** ** The table of the dynamic programme *)

Lemma dp_run_succ routes m :
  (1 <= m)%nat → dp_run routes (S m) = dp_step routes (dp_run routes m) (S m).
Proof.
  intros Hm. unfold dp_run.
  replace (S m - 1)%nat with (S (m - 1)) by lia.
  rewrite seq_S, foldl_app. simpl. do 2 f_equal. lia.
Qed.

Lemma dp_step_Ok routes st i T' :
  dp_step routes st i = Ok T' ↔
  ∃ T p sp r prev,
    st = Ok T ∧ pred_index routes i = Ok p ∧ T !! p = Some sp ∧
    routes !! (i - 1)%nat = Some r ∧ T !! (i - 1)%nat = Some prev ∧
    T' = <[i := py_max prev (Sequence.add sp r)]> T.
Proof.
  unfold dp_step. split.
  - intros H. inv_bind H. simplify_eq.
    rewrite seq_getitem_Ok in *. rewrite getitem_Ok in *. naive_solver.
  - intros (T&p&sp&r&prev&->&Hp&Hsp&Hr&Hprev&->). simpl. rewrite Hp. simpl.
    apply seq_getitem_Ok in Hsp as ->. apply getitem_Ok in Hr as ->.
    apply seq_getitem_Ok in Hprev as ->. done.
Qed.

Lemma dp_run_table_ok routes m T :
  (1 <= m)%nat → dp_run routes m = Ok T → table_ok routes m T.
Proof.
  intros Hm. revert T. induction Hm as [|m Hm IH]; intros T HT.
  - unfold dp_run, dp_init in HT. simpl in HT. inv_bind HT.
    apply getitem_Ok in Ha. simplify_eq. split_and!.
    + intros j. destruct j as [|[|j]]; simpl.
      * split; [lia|]. intros _. rewrite lookup_insert_ne by done.
        rewrite lookup_insert_eq. eauto.
      * split; [lia|]. intros _. rewrite lookup_insert_eq. eauto.
      * rewrite !lookup_insert_ne by lia. rewrite lookup_empty.
        split; [by intros [? ?]|lia].
    + by rewrite lookup_insert_ne.
    + exists a. split; [done|]. by rewrite lookup_insert_eq.
    + intros i ?. lia.
  - rewrite dp_run_succ in HT by done.
    apply dp_step_Ok in HT as (T0&p&sp&r&prev&HT0&Hp&Hsp&Hr&Hprev&->).
    destruct (IH T0 HT0) as (Hdom&H0&(r0&Hr0&H1)&Hrec).
    assert (p <= m)%nat as Hpm by (apply Hdom; eauto).
    split_and!.
    + intros j. destruct (decide (j = S m)) as [->|Hne].
      * rewrite lookup_insert_eq. split; [lia|eauto].
      * rewrite lookup_insert_ne by done. rewrite Hdom. lia.
    + by rewrite lookup_insert_ne.
    + exists r0. split; [done|]. rewrite lookup_insert_ne by lia. done.
    + intros i Hi. destruct (decide (i = S m)) as [->|Hne].
      * exists p, sp, r, prev. simpl in *. rewrite Nat.sub_0_r in *.
        rewrite !lookup_insert_ne by lia. rewrite lookup_insert_eq.
        split_and!; auto with lia.
      * destruct (Hrec i) as (p'&sp'&r'&prev'&?&?&?&?&?&?); [lia|].
        exists p', sp', r', prev'. rewrite !lookup_insert_ne by lia. done.
Qed.

(** The loop reaches its end whenever every predecessor index points at an
    entry that is already there. *)
Lemma dp_run_total routes m :
  (1 <= m <= length routes)%nat →
  (∀ i, (2 <= i <= m)%nat → ∃ p, pred_index routes i = Ok p ∧ (p < i)%nat) →
  ∃ T, dp_run routes m = Ok T.
Proof.
  intros [Hm Hlen]. induction Hm as [|m Hm IH]; intros Hp.
  - unfold dp_run, dp_init. simpl.
    destruct (lookup_lt_is_Some_2 routes 0%nat) as [r0 Hr0]; [lia|].
    unfold getitem. rewrite Hr0. simpl. eauto.
  - destruct IH as [T HT]; [lia|intros i ?; apply Hp; lia|].
    pose proof (dp_run_table_ok _ _ _ Hm HT) as (Hdom&_).
    destruct (Hp (S m)) as (p&Hpi&Hlt); [lia|].
    destruct (proj2 (Hdom p)) as [sp Hsp]; [lia|].
    destruct (proj2 (Hdom m)) as [prev Hprev]; [lia|].
    destruct (lookup_lt_is_Some_2 routes m) as [r Hr]; [lia|].
    eexists. rewrite dp_run_succ by done. apply dp_step_Ok.
    exists T, p, sp, r, prev. simpl. rewrite Nat.sub_0_r. done.
Qed.

(** ** Lists of regions *)

Lemma total_weight_app l1 l2 :
  total_weight (l1 ++ l2) = total_weight l1 + total_weight l2.
Proof. unfold total_weight. induction l1; simpl; lia. Qed.

Lemma total_weight_Permutation l1 l2 :
  l1 ≡ₚ l2 → total_weight l1 = total_weight l2.
Proof. unfold total_weight. induction 1; simpl; lia. Qed.

Section Pairwise.
Context {A : Type} (R : A → A → Prop).

Lemma pairwise_app l1 l2 :
  pairwise R (l1 ++ l2) ↔
  pairwise R l1 ∧ pairwise R l2 ∧ Forall (λ a, Forall (R a) l2) l1.
Proof.
  induction l1 as [|x l1 IH]; simpl.
  - rewrite Forall_nil. tauto.
  - rewrite Forall_app, Forall_cons, IH. tauto.
Qed.

Lemma pairwise_snoc l x :
  pairwise R (l ++ [x]) ↔ pairwise R l ∧ Forall (λ a, R a x) l.
Proof.
  rewrite pairwise_app. simpl. split.
  - intros (?&_&H). split; [done|].
    eapply Forall_impl; [exact H|]. intros a Ha. by apply Forall_cons in Ha as [? _].
  - intros (?&H). split; [done|]. split; [by split|].
    eapply Forall_impl; [exact H|]. intros a Ha. by repeat constructor.
Qed.

Lemma pairwise_sublist l1 l2 :
  l1 `sublist_of` l2 → pairwise R l2 → pairwise R l1.
Proof.
  induction 1 as [|x l1 l2 Hs IH|x l1 l2 Hs IH]; simpl; [done|..].
  - intros [Hx ?]. split; [|auto].
    rewrite Forall_forall in Hx |- *. intros y Hy. apply Hx.
    by eapply elem_of_sublist.
  - intros [_ ?]. auto.
Qed.

Lemma pairwise_Permutation `{!Symmetric R} l1 l2 :
  l1 ≡ₚ l2 → pairwise R l1 → pairwise R l2.
Proof.
  induction 1 as [|x l1 l2 Hp IH|x y l|l1 l2 l3 _ IH1 _ IH2]; simpl.
  - done.
  - intros [Hx ?]. split; [by rewrite <-Hp|auto].
  - intros [Hy [Hx ?]]. apply Forall_cons in Hy as [Hyx Hy].
    split_and!; [constructor|..]; done.
  - auto.
Qed.
End Pairwise.

Lemma pairwise_impl {A : Type} (R1 R2 : A → A → Prop) l :
  (∀ a b, R1 a b → R2 a b) → pairwise R1 l → pairwise R2 l.
Proof.
  intros HR. induction l as [|x l IH]; simpl; [done|].
  intros [Hx ?]. split; [|auto]. eapply Forall_impl; [exact Hx|]. auto.
Qed.

Global Instance apart_symmetric : Symmetric apart.
Proof. intros a b. unfold apart. tauto. Qed.

Global Instance apart_or_touching_symmetric : Symmetric apart_or_touching.
Proof. intros a b. unfold apart_or_touching. tauto. Qed.

Lemma before_apart_or_touching a b : before a b → apart_or_touching a b.
Proof. unfold before, apart_or_touching. lia. Qed.

(** ** The predecessor index on routes sorted by finish *)

Section Sorted.
Variable routes : list Region.t.
Hypothesis routes_sorted : StronglySorted (key_le Region.finish) routes.

Lemma finishes_ascending : ascending (Region.finish <$> routes).
Proof.
  intros i j. rewrite length_fmap. intros Hij.
  destruct (lookup_lt_is_Some_2 routes i) as [a Ha]; [lia|].
  destruct (lookup_lt_is_Some_2 routes j) as [b Hb]; [lia|].
  rewrite !nth_lookup, !list_lookup_fmap, Ha, Hb. simpl.
  eapply (sorted_lookup_le Region.finish); eauto. lia.
Qed.

Lemma bisect_finish_split x :
  let p := bisect_left (Region.finish <$> routes) x in
  Forall (λ a, Region.finish a < x) (take p routes) ∧
  Forall (λ a, x <= Region.finish a) (drop p routes).
Proof.
  destruct (bisect_left_spec _ x finishes_ascending) as (Hlen&Hlo&Hhi).
  rewrite length_fmap in *. split; apply Forall_lookup; intros k a Hk.
  - apply lookup_take_Some in Hk as [Hk Hlt].
    specialize (Hlo k Hlt).
    by rewrite nth_lookup, list_lookup_fmap, Hk in Hlo.
  - rewrite lookup_drop in Hk.
    pose proof (lookup_lt_Some _ _ _ Hk).
    specialize (Hhi (bisect_left (Region.finish <$> routes) x + k)%nat).
    rewrite nth_lookup, list_lookup_fmap, Hk in Hhi. apply Hhi. lia.
Qed.

Lemma pred_index_Ok i r :
  routes !! (i - 1)%nat = Some r →
  pred_index routes i = Ok (bisect_left (Region.finish <$> routes) (Region.start r)).
Proof.
  intros Hr. unfold pred_index, getitem. by rewrite list_lookup_fmap, Hr.
Qed.

(** A region that does not end before it starts has its predecessor
    index strictly below its own position. *)
Lemma pred_index_lt i r :
  (1 <= i)%nat → routes !! (i - 1)%nat = Some r → well_formed r →
  (bisect_left (Region.finish <$> routes) (Region.start r) < i)%nat.
Proof.
  intros Hi Hr Hwf.
  destruct (bisect_finish_split (Region.start r)) as [Hlo _].
  destruct (decide (bisect_left (Region.finish <$> routes) (Region.start r) < i)%nat)
    as [|Hge]; [done|].
  rewrite Forall_lookup in Hlo. specialize (Hlo (i - 1)%nat r).
  rewrite lookup_take_lt in Hlo by lia. specialize (Hlo Hr).
  unfold well_formed in Hwf. lia.
Qed.

Lemma table_feasible m T :
  table_ok routes m T → ∀ j s, T !! j = Some s → feasible routes j s.
Proof.
  intros (Hdom&H0&(r0&Hr0&H1)&Hrec) j.
  induction (lt_wf j) as [j _ IH]. intros s Hs. unfold feasible in *.
  destruct j as [|[|j]].
  - rewrite H0 in Hs. simplify_eq. split_and!; simpl; [constructor|done|done].
  - rewrite H1 in Hs. simplify_eq.
    rewrite (take_S_r _ _ _ Hr0). simpl. split_and!; simpl; auto with lia.
  - assert (S (S j) <= m)%nat as Hjm by (apply Hdom; eauto).
    destruct (Hrec (S (S j))) as (p&sp&r&prev&Hp&Hlt&Hsp&Hr&Hprev&Hmax); [lia|].
    simpl in Hr, Hprev. rewrite Hs in Hmax. simplify_eq.
    rewrite (take_S_r _ _ _ Hr).
    unfold py_max. destruct (Sequence.gt _ _).
    + destruct (IH p ltac:(lia) sp Hsp) as (Hsub&Hpw&Hw).
      rewrite (pred_index_Ok (S (S j)) r Hr) in Hp. simplify_eq.
      destruct (bisect_finish_split (Region.start r)) as [Hlo _].
      split_and!; simpl.
      * apply sublist_app; [|done]. etrans; [exact Hsub|].
        replace (bisect_left _ _) with
          (bisect_left (Region.finish <$> routes) (Region.start r) `min` S j)%nat
          by lia.
        rewrite <-take_take. apply sublist_take.
      * apply pairwise_snoc. split; [done|].
        apply Forall_forall. intros a Ha.
        rewrite Forall_forall in Hlo. apply Hlo.
        by eapply elem_of_sublist.
      * rewrite total_weight_app. simpl. lia.
    + destruct (IH (S j) ltac:(lia) prev Hprev) as (Hsub&Hpw&Hw).
      split_and!; [|done..]. by apply sublist_inserts_r.
Qed.

Lemma py_max_ge a b :
  Sequence.weight a <= Sequence.weight (py_max a b) ∧
  Sequence.weight b <= Sequence.weight (py_max a b).
Proof.
  unfold py_max, Sequence.gt.
  destruct (Z.ltb_spec (Sequence.weight a) (Sequence.weight b)); lia.
Qed.

(** Among the first [n] routes, the ones that end before [r] begins are
    the first [p]; a selection made of such routes lies within them. *)
Lemma sublist_before_pred n r sub :
  let p := bisect_left (Region.finish <$> routes) (Region.start r) in
  (p <= n)%nat → sub `sublist_of` take n routes →
  Forall (λ a, before a r) sub → sub `sublist_of` take p routes.
Proof.
  intros p Hpn Hsub Hall.
  destruct (bisect_finish_split (Region.start r)) as [_ Hhi]. fold p in Hhi.
  rewrite <-(take_drop p (take n routes)) in Hsub.
  rewrite take_take, Nat.min_l in Hsub by done.
  apply sublist_app_r in Hsub as (t1&t2&->&Ht1&Ht2).
  apply Forall_app in Hall as [_ Hall2].
  destruct t2 as [|a t2]; [by rewrite app_nil_r|].
  apply Forall_cons in Hall2 as [Ha _].
  assert (a ∈ drop p routes) as Hin.
  { eapply elem_of_sublist; [|apply (sublist_take _ (n - p))].
    rewrite take_drop_commute. replace (p + (n - p))%nat with n by lia.
    eapply elem_of_sublist; [|exact Ht2]. by left. }
  rewrite Forall_forall in Hhi. specialize (Hhi a Hin).
  unfold before in Ha. lia.
Qed.

Hypothesis routes_wf : Forall well_formed routes.

(** An earlier route that shares no coordinate with a later one ends
    before it begins. *)
Lemma apart_earlier_before k i a r :
  routes !! k = Some a → routes !! i = Some r → (k <= i)%nat →
  apart a r → before a r.
Proof.
  intros Ha Hr Hki [Hb|Hb]; [done|].
  pose proof (sorted_lookup_le Region.finish _ _ _ _ _ routes_sorted Ha Hr Hki).
  rewrite Forall_lookup in routes_wf. specialize (routes_wf _ _ Ha).
  unfold before, well_formed in *. lia.
Qed.

Lemma table_optimal m T :
  table_ok routes m T →
  (∀ r0, routes !! 0%nat = Some r0 → 0 <= Region.weight r0) →
  ∀ j s, T !! j = Some s →
  ∀ sub, sub `sublist_of` take j routes → pairwise apart sub →
         total_weight sub <= Sequence.weight s.
Proof.
  intros (Hdom&H0&(r0&Hr0&H1)&Hrec) Hpos j.
  induction (lt_wf j) as [j _ IH]. intros s Hs sub Hsub Hpw.
  destruct j as [|[|j]].
  - rewrite H0 in Hs. simplify_eq. apply sublist_nil_r in Hsub as ->. done.
  - rewrite H1 in Hs. simplify_eq. rewrite (take_S_r _ _ _ Hr0) in Hsub.
    simpl in Hsub. specialize (Hpos _ Hr0).
    apply sublist_cons_r in Hsub as [Hsub|(l&->&Hsub)];
      apply sublist_nil_r in Hsub as ->; simpl; lia.
  - destruct (Hrec (S (S j))) as (p&sp&r&prev&Hp&Hlt&Hsp&Hr&Hprev&Hmax).
    { split; [lia|]. apply Hdom; eauto. }
    simpl in Hr, Hprev. rewrite Hs in Hmax. simplify_eq.
    rewrite (pred_index_Ok (S (S j)) r Hr) in Hp. simplify_eq.
    destruct (py_max_ge prev (Sequence.add sp r)) as [Hge1 Hge2].
    rewrite (take_S_r _ _ _ Hr) in Hsub.
    apply sublist_app_r in Hsub as (s1&s2&->&Hs1&Hs2).
    apply sublist_cons_r in Hs2 as [Hs2|(l&->&Hs2)];
      apply sublist_nil_r in Hs2 as ->.
    + rewrite app_nil_r in *.
      specialize (IH (S j) ltac:(lia) prev Hprev s1 Hs1 Hpw). lia.
    + apply pairwise_snoc in Hpw as [Hpw1 Hall].
      assert (Forall (λ a, before a r) s1) as Hbefore.
      { apply Forall_forall. intros a Ha.
        rewrite Forall_forall in Hall. specialize (Hall a Ha).
        assert (a ∈ take (S j) routes) as Hin by by eapply elem_of_sublist.
        apply elem_of_take in Hin as (k&Hk&Hkj).
        eapply (apart_earlier_before k (S j)); eauto with lia. }
      pose proof (sublist_before_pred (S j) r s1 ltac:(lia) Hs1 Hbefore) as Hs1p.
      specialize (IH _ Hlt sp Hsp s1 Hs1p Hpw1).
      rewrite total_weight_app. simpl in *. lia.
Qed.
End Sorted.

(** ** The engine on a block *)

Lemma dp_table_inv block T :
  dp_table block = Ok T →
  (1 <= length block)%nat ∧
  table_ok (sort_by Region.finish block) (length block) T.
Proof.
  unfold dp_table. rewrite sort_by_length. intros HT.
  assert (1 <= length block)%nat as Hlen.
  { destruct block as [|r block]; simpl; [|lia]. by vm_compute in HT. }
  split; [done|]. by apply dp_run_table_ok.
Qed.

Lemma best_sequence_inv block s :
  best_sequence block = Ok s →
  ∃ T, dp_table block = Ok T ∧ T !! length block = Some s.
Proof.
  unfold best_sequence. rewrite sort_by_length. intros H. inv_bind H.
  apply seq_getitem_Ok in H. eauto.
Qed.

Lemma sorted_well_formed block :
  Forall well_formed block → Forall well_formed (sort_by Region.finish block).
Proof. by rewrite sort_by_Permutation. Qed.

Lemma dp_table_total block :
  block ≠ [] → Forall well_formed block → ∃ T, dp_table block = Ok T.
Proof.
  intros Hne Hwf. unfold dp_table. apply dp_run_total.
  - rewrite sort_by_length. destruct block; [done|simpl; lia].
  - intros i Hi.
    destruct (lookup_lt_is_Some_2 (sort_by Region.finish block) (i - 1)%nat)
      as [r Hr]; [lia|].
    pose proof (sort_by_sorted Region.finish block) as Hs.
    eexists. split; [by apply pred_index_Ok|].
    apply pred_index_lt; [done|lia|done|].
    apply sorted_well_formed in Hwf. by eapply Forall_lookup_1 in Hwf.
Qed.

Lemma best_sequence_total block :
  block ≠ [] → Forall well_formed block → ∃ s, best_sequence block = Ok s.
Proof.
  intros Hne Hwf. destruct (dp_table_total block Hne Hwf) as [T HT].
  destruct (dp_table_inv _ _ HT) as (Hlen&Hdom&_).
  destruct (proj2 (Hdom (length block))) as [s Hs]; [lia|].
  exists s. unfold best_sequence. rewrite HT, sort_by_length. simpl.
  by apply seq_getitem_Ok.
Qed.

Lemma get_partial_inv debug block p :
  get_partial debug block = Ok p →
  ∃ s, best_sequence block = Ok s ∧
       selected p = Sequence.regs s ∧ top_weight_tmp p = Sequence.weight s ∧
       printed p = (if debug then [] else Region.line <$> Sequence.regs s) ∧
       tmp_count p = (if debug then length (Sequence.regs s) else 0%nat).
Proof.
  unfold get_partial. intros H. inv_bind H. simplify_eq. eauto 10.
Qed.

Lemma get_partial_total debug block :
  block ≠ [] → Forall well_formed block → ∃ p, get_partial debug block = Ok p.
Proof.
  intros Hne Hwf. destruct (best_sequence_total block Hne Hwf) as [s Hs].
  unfold get_partial. rewrite Hs. simpl. eauto.
Qed.

Lemma best_sequence_feasible block s :
  best_sequence block = Ok s →
  feasible (sort_by Region.finish block) (length block) s.
Proof.
  intros (T&HT&Hs)%best_sequence_inv.
  destruct (dp_table_inv _ _ HT) as (_&Hok).
  eapply table_feasible; eauto using sort_by_sorted.
Qed.

Lemma best_sequence_single r : best_sequence [r] = Ok (S1 r).
Proof. reflexivity. Qed.

Example get_partial_negative_region :
  get_partial false [negative_region]
  = Ok (mkPartial [negative_region] [Region.line negative_region] (-5) 0).
Proof. reflexivity. Qed.

(** The first region by finish is in every later sequence that builds on
    it: here the engine returns 5 for both regions, and the second region
    alone weighs 10. *)
Example get_partial_negative_first :
  get_partial false [negative_first; positive_later]
  = Ok (mkPartial [negative_first; positive_later]
                  [Region.line negative_first; Region.line positive_later] 5 0).
Proof. vm_compute. reflexivity. Qed.

Example get_partial_touching_block :
  get_partial false touching_block
  = Ok (mkPartial [touching_first] [Region.line touching_first] 10 0).
Proof. vm_compute. reflexivity. Qed.

(** ** The loop of resolve over one group *)

Lemma foldl_group_step_Raise engine e rest :
  foldl (group_step engine) (Raise e) rest = Raise e.
Proof. induction rest; simpl; auto. Qed.

Lemma group_step_inv engine s region s' :
  group_step engine (Ok s) region = Ok s' →
  (sequences s ≠ [] ∧ most_far s < Region.start region ∧
   ∃ p, engine (sequences s) = Ok p ∧
        s' = mkState [region]
                     (top_weight s + top_weight_tmp p)
                     (Z.max (Region.finish region) (most_far s))
                     (count s + tmp_count p)
                     (chosen s ++ selected p)
                     (output s ++ printed p))
  ∨ ((sequences s = [] ∨ Region.start region <= most_far s) ∧
     s' = mkState (sequences s ++ [region])
                  (top_weight s)
                  (Z.max (Region.finish region) (most_far s))
                  (count s) (chosen s) (output s)).
Proof.
  unfold group_step. simpl.
  destruct (Nat.ltb_spec 0 (length (sequences s))) as [Hlen|Hlen];
    destruct (Z.ltb_spec (most_far s) (Region.start region)) as [Hfar|Hfar];
    simpl; intros H.
  - left. unfold call_engine in H.
    apply rbind_Ok in H as (s1&H1&H). apply rbind_Ok in H1 as (s2&H2&H1).
    apply rbind_Ok in H2 as (p&Hp&H2). simplify_eq. simpl.
    split_and!; [|done|eauto].
    intros E. rewrite E in Hlen. simpl in Hlen. lia.
  - right. simplify_eq. auto.
  - right. simplify_eq. split; [|done]. left. destruct (sequences s); [done|simpl in *; lia].
  - right. simplify_eq. split; [|done]. left. destruct (sequences s); [done|simpl in *; lia].
Qed.

Lemma call_engine_inv engine s s' :
  call_engine engine s = Ok s' →
  ∃ p, engine (sequences s) = Ok p ∧
       s' = mkState (sequences s)
                    (top_weight s + top_weight_tmp p)
                    (most_far s)
                    (count s + tmp_count p)
                    (chosen s ++ selected p)
                    (output s ++ printed p).
Proof. unfold call_engine. intros H. inv_bind H. simplify_eq. eauto. Qed.

(** The engine is only ever given a block that holds a region. *)
Lemma group_loop_engine_nonempty engine1 engine2 rest :
  (∀ b, b ≠ [] → engine1 b = engine2 b) →
  ∀ s, sequences s ≠ [] ∨ rest ≠ [] →
  rbind (foldl (group_step engine1) (Ok s) rest) (call_engine engine1)
  = rbind (foldl (group_step engine2) (Ok s) rest) (call_engine engine2).
Proof.
  intros Heq. induction rest as [|region rest IH]; intros s Hne; cbn [foldl rbind].
  - destruct Hne as [Hne|?]; [|done]. unfold call_engine. by rewrite Heq.
  - assert (group_step engine1 (Ok s) region = group_step engine2 (Ok s) region)
      as Hstep.
    { unfold group_step, call_engine. simpl.
      destruct (Nat.ltb_spec 0 (length (sequences s))); simpl; [|done].
      destruct (most_far s <? Region.start region); simpl; [|done].
      rewrite Heq; [done|]. destruct (sequences s); [simpl in *; lia|done]. }
    rewrite Hstep. destruct (group_step engine2 (Ok s) region) as [s1|e] eqn:Hs1.
    + apply IH. left. apply group_step_inv in Hs1 as [(_&_&p&_&->)|(_&->)]; simpl; [done|].
      by destruct (sequences s).
    + by rewrite !foldl_group_step_Raise.
Qed.

(** What the engine selects: regions of the block, each ending before the
    next one begins. *)
Lemma get_partial_selected debug block p :
  get_partial debug block = Ok p →
  pairwise before (selected p) ∧ selected p ⊆ block.
Proof.
  intros (s&Hs&->&_)%get_partial_inv.
  destruct (best_sequence_feasible _ _ Hs) as (Hsub&Hpw&_).
  split; [done|]. intros a Ha.
  rewrite <-(sort_by_Permutation Region.finish block).
  eapply elem_of_sublist; [exact Ha|]. etrans; [exact Hsub|apply sublist_take].
Qed.

Lemma group_loop_chain debug rest :
  ∀ s s',
    foldl (group_step (get_partial debug)) (Ok s) rest = Ok s' →
    StronglySorted (key_le Region.start) rest →
    pairwise before (chosen s) →
    (∀ a b, a ∈ chosen s → b ∈ sequences s ++ rest → before a b) →
    (∀ a, a ∈ sequences s → Region.finish a <= most_far s) →
    pairwise before (chosen s') ∧
    (∀ a b, a ∈ chosen s' → b ∈ sequences s' → before a b).
Proof.
  induction rest as [|region rest IH]; intros s s' Hrun Hsorted I1 I2 I3;
    cbn [foldl] in *.
  - simplify_eq. split; [done|]. intros a b Ha Hb. apply I2; [done|].
    by rewrite app_nil_r.
  - destruct (group_step (get_partial debug) (Ok s) region) as [s1|e] eqn:Hs1;
      [|by rewrite foldl_group_step_Raise in Hrun].
    apply StronglySorted_inv in Hsorted as [Hsorted Hhd].
    apply (IH s1 s' Hrun Hsorted);
      apply group_step_inv in Hs1 as [(_&Hfar&p&Hp&->)|(_&->)]; simpl.
    + destruct (get_partial_selected _ _ _ Hp) as [Hpw Hin].
      apply pairwise_app. split_and!; [done..|].
      apply Forall_forall. intros a Ha. apply Forall_forall. intros b Hb.
      apply I2; [done|]. apply elem_of_app. left. by apply Hin.
    + done.
    + destruct (get_partial_selected _ _ _ Hp) as [Hpw Hin].
      intros a b [Ha|Ha]%elem_of_app Hb.
      * apply I2; [done|]. apply elem_of_app. right. done.
      * specialize (I3 a (Hin a Ha)). unfold before.
        apply elem_of_cons in Hb as [->|Hb]; [lia|].
        rewrite Forall_forall in Hhd. specialize (Hhd b Hb).
        unfold key_le in Hhd. lia.
    + intros a b Ha Hb. apply I2; [done|].
      by rewrite <-app_assoc in Hb.
    + intros a ->%list_elem_of_singleton. lia.
    + intros a [Ha| ->%list_elem_of_singleton]%elem_of_app; [|lia].
      specialize (I3 a Ha). lia.
Qed.

(** ** The engine on two blocks that follow one another *)



(** On a sorted list the index [bisect_left] returns is the only cut with
    smaller finishes on its left and the others on its right. *)
Lemma bisect_left_unique routes x p :
  StronglySorted (key_le Region.finish) routes →
  (p <= length routes)%nat →
  Forall (λ a, Region.finish a < x) (take p routes) →
  Forall (λ a, x <= Region.finish a) (drop p routes) →
  bisect_left (Region.finish <$> routes) x = p.
Proof.
  intros Hs Hp Hlo Hhi.
  destruct (bisect_finish_split routes Hs x) as [Hlo' Hhi'].
  set (q := bisect_left _ _) in *.
  rewrite Forall_lookup in Hlo, Hhi, Hlo', Hhi'.
  destruct (lt_eq_lt_dec p q) as [[Hlt| ->]|Hlt]; [|done|].
  - destruct (lookup_lt_is_Some_2 routes p) as [a Ha].
    { destruct (bisect_left_spec _ x (finishes_ascending routes Hs)) as (Hq&_).
      rewrite length_fmap in Hq. fold q in Hq. lia. }
    specialize (Hlo' p a). rewrite lookup_take_lt in Hlo' by done.
    specialize (Hhi 0%nat a). rewrite lookup_drop, Nat.add_0_r in Hhi.
    specialize (Hlo' Ha). specialize (Hhi Ha). lia.
  - destruct (lookup_lt_is_Some_2 routes q) as [a Ha]; [lia|].
    specialize (Hlo q a). rewrite lookup_take_lt in Hlo by done.
    specialize (Hhi' 0%nat a). rewrite lookup_drop, Nat.add_0_r in Hhi'.
    specialize (Hlo Ha). specialize (Hhi' Ha). lia.
Qed.

Section Concat.
Variables RA RB : list Region.t.
Hypothesis RA_sorted : StronglySorted (key_le Region.finish) RA.
Hypothesis RB_sorted : StronglySorted (key_le Region.finish) RB.
Hypothesis RA_wf : Forall well_formed RA.
Hypothesis RB_wf : Forall well_formed RB.
Hypothesis RA_before_RB : ∀ a b, a ∈ RA → b ∈ RB → before a b.




Variables (TA TB T : gmap nat Sequence.t) (rb0 : Region.t).
Hypothesis RA_nonempty : RA ≠ [].
Hypothesis RB_first : RB !! 0%nat = Some rb0.
Hypothesis rb0_weight : 0 <= Region.weight rb0.
Hypothesis TA_ok : table_ok RA (length RA) TA.
Hypothesis TB_ok : table_ok RB (length RB) TB.
Hypothesis T_ok : table_ok (RA ++ RB) (length RA + length RB) T.


End Concat.

Lemma get_partial_printed debug block p :
  get_partial debug block = Ok p →
  printed p = (if debug then [] else Region.line <$> selected p) ∧
  tmp_count p = (if debug then length (selected p) else 0%nat).
Proof. by intros (s&_&->&_&->&->)%get_partial_inv. Qed.






(** * The claims *)

(** C1 (amended).  For every non-empty block whose regions have
    start <= finish and whose earliest-finishing region (the first one after
    the sort by finish) has a non-negative weight, the engine returns, and
    the weight it returns is the maximum, over the sub-collections of the
    block whose members pairwise share no coordinate (a.finish < b.start or
    b.finish < a.start), of the sum of the weights. *)
Theorem get_partial_weight_is_maximum debug block :
  block ≠ [] →
  Forall well_formed block →
  (∀ r0, head (sort_by Region.finish block) = Some r0 → 0 <= Region.weight r0) →
  ∃ p, get_partial debug block = Ok p ∧
       is_max_weight apart block (top_weight_tmp p).
Proof.
  intros Hne Hwf Hpos.
  destruct (get_partial_total debug block Hne Hwf) as [p Hp]. exists p.
  split; [done|].
  destruct (get_partial_inv _ _ _ Hp) as (s&Hs&Hsel&Hw&_). rewrite Hw.
  destruct (best_sequence_feasible _ _ Hs) as (Hsub&Hpw&Hsum).
  destruct (best_sequence_inv _ _ Hs) as (T&HT&HTn).
  destruct (dp_table_inv _ _ HT) as (_&Hok).
  pose proof (sort_by_Permutation Region.finish block) as Hperm.
  rewrite take_ge in Hsub by (rewrite sort_by_length; lia).
  split.
  - destruct (sublist_Permutation _ _ _ Hsub Hperm) as (l&Hl&Hlsub).
    exists l. split_and!; [done| |].
    + eapply pairwise_Permutation; [apply _|exact Hl|].
      eapply pairwise_impl; [|exact Hpw]. intros a b ?. by left.
    + by rewrite <-(total_weight_Permutation _ _ Hl).
  - intros sub Hsubl Hsubpw.
    symmetry in Hperm.
    destruct (sublist_Permutation _ _ _ Hsubl Hperm) as (l&Hl&Hlsub).
    rewrite (total_weight_Permutation _ _ Hl).
    eapply (table_optimal (sort_by Region.finish block)); eauto.
    + apply sort_by_sorted.
    + by apply sorted_well_formed.
    + intros r0 Hr0. apply Hpos. by rewrite head_lookup.
    + rewrite take_ge by (rewrite sort_by_length; lia). done.
    + eapply pairwise_Permutation; [apply _|exact Hl|done].
Qed.

Lemma get_partial_weight_is_maximum_witness :
  ∃ p, get_partial false unsorted_group = Ok p ∧
       is_max_weight apart unsorted_group (top_weight_tmp p).
Proof.
  apply (get_partial_weight_is_maximum false unsorted_group).
  - discriminate.
  - repeat constructor; unfold well_formed; simpl; lia.
  - intros r0 Hr0. vm_compute in Hr0. injection Hr0 as <-. simpl. lia.
Defined.

(** C1, as stated, fails: the two regions (1,5) and (5,8) of weight 10 are
    non-overlapping in the sense finish <= start, their sum is 20, and the
    engine returns 10. *)
Lemma touching_block_not_maximum :
  ∃ p, get_partial false touching_block = Ok p ∧
       ¬ is_max_weight apart_or_touching touching_block (top_weight_tmp p).
Proof.
  eexists. split; [apply get_partial_touching_block|].
  intros [_ Hmax]. specialize (Hmax touching_block).
  assert (20 <= 10); [|lia].
  apply Hmax; [done|]. split; [|split; [constructor|done]].
  constructor; [|constructor]. left. unfold touching_first, touching_second.
  simpl. lia.
Qed.

(** C4 (the code departs from the claim).  A block of one region is
    answered from the initial condition [sequences[1]] alone: the region is
    selected and its weight returned whatever its sign, so a region of
    negative weight is selected with its negative weight, not left out for
    weight 0. *)
Theorem single_region_block_selects_it debug r :
  get_partial debug [r]
  = Ok (mkPartial [r]
                  (if debug then [] else [Region.line r])
                  (Region.weight r)
                  (if debug then 1%nat else 0%nat)).
Proof. by destruct debug. Qed.

(** C5 (amended).  In the DP loop, for every i from 2 to n whose region
    has start <= finish, the predecessor index p(i) equals the number of
    regions among positions 1..i-1 (in finish-ascending order) whose finish
    is strictly less than region i's start; a region j < i with
    finish[j] = start[i] is not counted. *)
Theorem pred_index_counts_strictly_before block i r :
  (2 <= i <= length block)%nat →
  sort_by Region.finish block !! (i - 1)%nat = Some r →
  well_formed r →
  pred_index (sort_by Region.finish block) i
  = Ok (length (filter (λ a, before a r)
                       (take (i - 1) (sort_by Region.finish block)))).
Proof.
  intros Hi Hr Hwf. set (routes := sort_by Region.finish block) in *.
  pose proof (sort_by_sorted Region.finish block) as Hs. fold routes in Hs.
  rewrite (pred_index_Ok routes i r Hr). f_equal.
  set (p := bisect_left _ _).
  pose proof (pred_index_lt routes Hs i r ltac:(lia) Hr Hwf) as Hlt. fold p in Hlt.
  destruct (bisect_finish_split routes Hs (Region.start r)) as [Hlo Hhi].
  fold p in Hlo, Hhi.
  rewrite <-(take_drop p (take (i - 1) routes)).
  rewrite take_take, Nat.min_l, filter_app by lia.
  assert (filter (λ a, before a r) (take p routes) = take p routes) as ->.
  { clear -Hlo. induction Hlo as [|a l Ha _ IH]; [done|].
    rewrite filter_cons_True by done. by rewrite IH. }
  assert (filter (λ a, before a r) (drop p (take (i - 1) routes)) = []) as ->.
  { assert (Forall (λ a, Region.start r <= Region.finish a)
                   (drop p (take (i - 1) routes))) as Hall.
    { apply Forall_forall. intros a Ha. rewrite Forall_forall in Hhi. apply Hhi.
      eapply elem_of_sublist; [|apply (sublist_take _ (i - 1 - p))].
      rewrite take_drop_commute. by replace (p + (i - 1 - p))%nat with (i - 1)%nat by lia. }
    clear -Hall. induction Hall as [|a l Ha _ IH]; [done|].
    rewrite filter_cons_False; [done|]. unfold before. lia. }
  rewrite app_nil_r, length_take.
  assert (i <= length routes)%nat
    by (unfold routes; rewrite sort_by_length; lia).
  lia.
Qed.

Lemma pred_index_counts_strictly_before_witness :
  pred_index (sort_by Region.finish touching_block) 2
  = Ok (length (filter (λ a, before a touching_second)
                       (take (2 - 1) (sort_by Region.finish touching_block)))).
Proof.
  apply (pred_index_counts_strictly_before touching_block 2 touching_second).
  - simpl. lia.
  - reflexivity.
  - unfold well_formed, touching_second. simpl. lia.
Defined.

(** C5, as stated, fails: for the regions (1,5) and (5,8) the predecessor
    index of the second one is 0, while one region among position 1 has
    finish <= its start. *)
Lemma pred_index_skips_touching :
  pred_index (sort_by Region.finish touching_block) 2 = Ok 0%nat ∧
  length (filter (λ a, Region.finish a <= Region.start touching_second)
                 (take (2 - 1) (sort_by Region.finish touching_block))) = 1%nat.
Proof. split; vm_compute; reflexivity. Qed.

(** C6.  For every i from 2 to n, [sequences[i]] is [sequences[i-1]]
    whenever the candidate (the sequence at the predecessor index extended
    by region i) does not weigh strictly more, in particular on a tie; the
    candidate is kept only when its weight is strictly greater. *)
Theorem tie_keeps_previous_sequence block T i p sp r prev :
  dp_table block = Ok T →
  (2 <= i <= length block)%nat →
  pred_index (sort_by Region.finish block) i = Ok p →
  T !! p = Some sp →
  sort_by Region.finish block !! (i - 1)%nat = Some r →
  T !! (i - 1)%nat = Some prev →
  (Sequence.weight (Sequence.add sp r) = Sequence.weight prev →
     T !! i = Some prev) ∧
  (Sequence.weight (Sequence.add sp r) <= Sequence.weight prev →
     T !! i = Some prev) ∧
  (Sequence.weight prev < Sequence.weight (Sequence.add sp r) →
     T !! i = Some (Sequence.add sp r)).
Proof.
  intros HT Hi Hp Hsp Hr Hprev.
  destruct (dp_table_inv _ _ HT) as (_&_&_&_&Hrec).
  destruct (Hrec i Hi) as (p'&sp'&r'&prev'&Hp'&_&Hsp'&Hr'&Hprev'&Hi').
  assert (p' = p) as -> by congruence.
  simplify_eq. rewrite Hi'. unfold py_max, Sequence.gt.
  destruct (Z.ltb_spec (Sequence.weight prev) (Sequence.weight (Sequence.add sp r)));
    split_and!; intros; first [done|lia].
Qed.

Lemma tie_keeps_previous_sequence_witness :
  dp_table touching_block = Ok touching_table ∧
  touching_table !! 2%nat = Some (S1 touching_first).
Proof.
  assert (dp_table touching_block = Ok touching_table) as HT
    by (vm_compute; reflexivity).
  split; [exact HT|].
  apply (tie_keeps_previous_sequence touching_block touching_table 2 0
           S0 touching_second (S1 touching_first) HT).
  - simpl. lia.
  - vm_compute. reflexivity.
  - vm_compute. reflexivity.
  - reflexivity.
  - vm_compute. reflexivity.
  - reflexivity.
Defined.

(** C7.  The weight the engine reports is the sum of the weights of the
    regions it reports as selected; the same holds of every Sequence of the
    DP table and of every candidate built from one ([weight] is the sum of
    the weights of [regs]).  On a non-empty block of regions with
    start <= finish the engine does report a result. *)
Theorem reported_weight_is_sum_of_selected debug block :
  (∀ p, get_partial debug block = Ok p →
        top_weight_tmp p = total_weight (selected p)) ∧
  (∀ T j s, dp_table block = Ok T → T !! j = Some s →
        Sequence.weight s = total_weight (Sequence.regs s) ∧
        ∀ r, Sequence.weight (Sequence.add s r)
             = total_weight (Sequence.regs (Sequence.add s r))) ∧
  (block ≠ [] → Forall well_formed block →
     ∃ p, get_partial debug block = Ok p).
Proof.
  split_and!.
  - intros p (s&Hs&->&->&_)%get_partial_inv.
    by destruct (best_sequence_feasible _ _ Hs) as (_&_&?).
  - intros T j s HT Hs.
    destruct (dp_table_inv _ _ HT) as (_&Hok).
    destruct (table_feasible _ (sort_by_sorted Region.finish block) _ _ Hok j s Hs)
      as (_&_&Hw).
    split; [done|]. intros r. simpl. rewrite total_weight_app. simpl. lia.
  - apply get_partial_total.
Qed.

(** C2 (amended).  The selection the engine makes in a block is pairwise
    non-overlapping for every block.  The selected result set of a group is
    pairwise non-overlapping (a.finish <= b.start or b.finish <= a.start for
    any two of its members; in fact a.finish < b.start for a printed before
    b) for every group that reaches the block splitter in start order: every
    group when the pre-sorted flag is not set, and a group that is sorted by
    start when it is set. *)
Theorem selection_pairwise_non_overlapping debug is_sorted group st :
  (is_sorted = true → StronglySorted (key_le Region.start) group) →
  resolve_group debug is_sorted group = Ok st →
  pairwise apart_or_touching (chosen st) ∧
  pairwise before (chosen st) ∧
  (∀ block p, get_partial debug block = Ok p →
              pairwise apart_or_touching (selected p)).
Proof.
  intros Hsorted Hrun.
  assert (∀ l, pairwise before l → pairwise apart_or_touching l) as Himpl.
  { intros l. apply pairwise_impl. apply before_apart_or_touching. }
  assert (pairwise before (chosen st)) as Hchain.
  { unfold resolve_group, resolve_group_with in Hrun.
    apply rbind_Ok in Hrun as (s&Hloop&Hlast).
    apply call_engine_inv in Hlast as (p&Hp&->). simpl.
    destruct (get_partial_selected _ _ _ Hp) as [Hpw Hin].
    eapply group_loop_chain in Hloop as [I1 I2]; simpl.
    - apply pairwise_app. split_and!; [done..|].
      apply Forall_forall. intros a Ha. apply Forall_forall. intros b Hb.
      apply I2; [done|]. by apply Hin.
    - destruct is_sorted; [by apply Hsorted|apply sort_by_sorted].
    - done.
    - intros a b Ha. by apply elem_of_nil in Ha.
    - intros a Ha. by apply elem_of_nil in Ha. }
  split_and!; [by apply Himpl|done|].
  intros block p Hp. apply Himpl. by destruct (get_partial_selected _ _ _ Hp).
Qed.

Lemma selection_pairwise_non_overlapping_witness :
  ∃ st, resolve_group false false unsorted_group = Ok st ∧
        chosen st = [unsorted_third; unsorted_second] ∧
        pairwise apart_or_touching (chosen st).
Proof.
  assert (∃ st, resolve_group false false unsorted_group = Ok st ∧
                chosen st = [unsorted_third; unsorted_second])
    as (st&Hst&Hchosen) by (eexists; split; vm_compute; reflexivity).
  exists st. split_and!; [done..|].
  apply (selection_pairwise_non_overlapping false false unsorted_group st);
    [discriminate|exact Hst].
Defined.

(** C2, as stated, fails: with the pre-sorted flag set, the group
    (1,5) (7,8) (2,3) is cut after (1,5), and (1,5) and (2,3) are both
    selected although they overlap. *)
Lemma flagged_unsorted_group_overlaps :
  ∃ st, resolve_group false true unsorted_group = Ok st ∧
        chosen st = [unsorted_first; unsorted_third; unsorted_second] ∧
        ¬ pairwise apart_or_touching (chosen st).
Proof.
  eexists. split_and!; [vm_compute; reflexivity|reflexivity|].
  simpl. intros [H _]. apply Forall_cons in H as [[H|H] _]; revert H;
    unfold unsorted_first, unsorted_third; simpl; lia.
Qed.

(** C8 (amended).  Invoked on an empty block, the engine raises IndexError
    at [routes[0]]: it has no zero-length path.  The caller never invokes
    it on an empty block: whatever an engine would do there, the result of
    resolving a non-empty group is the same. *)
Theorem empty_block_raises_and_is_never_passed debug engine is_sorted group :
  group ≠ [] →
  (∀ block, block ≠ [] → engine block = get_partial debug block) →
  get_partial debug [] = Raise IndexError ∧
  resolve_group_with engine is_sorted group = resolve_group debug is_sorted group.
Proof.
  intros Hne Heq. split; [done|].
  unfold resolve_group, resolve_group_with.
  apply group_loop_engine_nonempty; [done|]. right.
  destruct is_sorted; [done|].
  intros E. apply Hne. apply nil_length_inv.
  by rewrite <-(sort_by_length Region.start), E.
Qed.

Lemma empty_block_raises_and_is_never_passed_witness :
  get_partial false [] = Raise IndexError ∧
  resolve_group_with
    (λ block, match block with [] => Ok (mkPartial [] [] 0 0) | _ => get_partial false block end)
    true touching_block
  = resolve_group false true touching_block.
Proof.
  apply (empty_block_raises_and_is_never_passed false _ true touching_block).
  - discriminate.
  - intros block Hne. destruct block; [done|reflexivity].
Defined.

(** C8, as stated, fails: on the empty block the engine returns nothing,
    it raises IndexError. *)
Lemma empty_block_is_an_error :
  get_partial false [] = Raise IndexError ∧
  get_partial false [] ≠ Ok (mkPartial [] [] 0 0).
Proof. split; [reflexivity|discriminate]. Qed.




(** ** Records *)

Example init_touching_first :
  Region.init "chr1 src gene 1 5 10 + ." = Ok touching_first.
Proof. vm_compute. reflexivity. Qed.

Example init_negative_region :
  Region.init "chr1 src gene 1 1 -5 + ." = Ok negative_region.
Proof. vm_compute. reflexivity. Qed.

(** The sample regions are the records their lines parse to. *)
Example init_samples :
  Forall (λ r, Region.init (Region.line r) = Ok r)
         [touching_first; touching_second; negative_region;
          negative_first; positive_later; unsorted_first; unsorted_second; unsorted_third;
          zero_first; zero_second; region_geneA; region_chr1gene].
Proof. repeat (constructor; [vm_compute; reflexivity|]). constructor. Qed.

(** A line of fewer than seven fields, or with a field that is no integer,
    gives no Region. *)
Example init_errors :
  Region.init "chr1 src gene 1 5 10" = Raise IndexError ∧
  Region.init "chr1 src gene 1 5 . + ." = Raise ValueError.
Proof. split; vm_compute; reflexivity. Qed.

Example split_tabs :
  split ("chr1" +:+ String (ascii_of_nat 9) "gene  +" +:+ String (ascii_of_nat 10) "")
  = ["chr1"; "gene"; "+"].
Proof. vm_compute. reflexivity. Qed.

Example py_int_samples :
  py_int "1_000" = Ok 1000 ∧ py_int "+7" = Ok 7 ∧ py_int "-12" = Ok (-12) ∧
  py_int "" = Raise ValueError ∧ py_int "1__0" = Raise ValueError ∧
  py_int "5_" = Raise ValueError ∧ py_int "." = Raise ValueError.
Proof. vm_compute. repeat split. Qed.

(** C9 (amended).  For every input record, the Region is built from the
    positional fields 1, 3, 4, 5, 6, 7 (1-indexed): sequence id, feature
    type, start, finish, weight, strand.  The group key is the concatenation
    of the sequence-id, feature-type and strand tokens (fields 1, 3, 7);
    start, finish and weight are the integers of fields 4, 5 and 6; the
    record is built exactly when these fields are there and the three
    numbers parse. *)
Theorem region_init_fields line r :
  Region.init line = Ok r ↔
  ∃ seqid type strand p_start p_finish p_weight s f w,
    split line !! 0%nat = Some seqid ∧
    split line !! 2%nat = Some type ∧
    split line !! 3%nat = Some p_start ∧
    split line !! 4%nat = Some p_finish ∧
    split line !! 5%nat = Some p_weight ∧
    split line !! 6%nat = Some strand ∧
    py_int p_start = Ok s ∧ py_int p_finish = Ok f ∧ py_int p_weight = Ok w ∧
    r = Region.mk line ((seqid +:+ type) +:+ strand) s f w.
Proof.
  unfold Region.init. split.
  - intros H. inv_bind H. rewrite getitem_Ok in *. simplify_eq.
    eexists _, _, _, _, _, _, _, _, _. split_and!; done.
  - intros (seqid&type&strand&ps&pf&pw&s0&f&w&H0&H2&H3&H4&H5&H6&Hs&Hf&Hw&->).
    unfold getitem. rewrite H0, H2, H3, H4, H5, H6. simpl.
    rewrite Hs, Hf, Hw. done.
Qed.

(** C9, as stated, fails: two records that agree on the fields 1, 3, 4, 6
    and 7 and differ in field 5 give Regions with different finish. *)
Lemma region_depends_on_fifth_field :
  ∃ r1 r2,
    Region.init line_finish_5 = Ok r1 ∧ Region.init line_finish_9 = Ok r2 ∧
    Forall (λ i, split line_finish_5 !! i = split line_finish_9 !! i)
           [0; 2; 3; 5; 6]%nat ∧
    Region.finish r1 = 5 ∧ Region.finish r2 = 9 ∧
    Region.finish r1 ≠ Region.finish r2.
Proof.
  exists (Region.mk line_finish_5 "chr1gene+" 1 5 10),
         (Region.mk line_finish_9 "chr1gene+" 1 9 10).
  split_and!.
  - vm_compute. reflexivity.
  - vm_compute. reflexivity.
  - repeat (constructor; [vm_compute; reflexivity|]). constructor.
  - reflexivity.
  - reflexivity.
  - simpl. lia.
Qed.

(** C10.  Two records whose (sequence id, feature type, strand) triples
    differ can have the same group key, the key being the three tokens
    written one after the other with nothing in between: sequence id chr1
    with type geneA, and sequence id chr1gene with type A, on the same
    strand.  Such records are placed in one group and scheduled together:
    here they overlap and only one of them is selected, while each of them
    alone is selected. *)
Theorem distinct_triples_share_group_key :
  Region.init line_geneA = Ok region_geneA ∧
  Region.init line_chr1gene = Ok region_chr1gene ∧
  (split line_geneA !! 0%nat, split line_geneA !! 2%nat, split line_geneA !! 6%nat)
    = (Some "chr1", Some "geneA", Some "+") ∧
  (split line_chr1gene !! 0%nat, split line_chr1gene !! 2%nat,
   split line_chr1gene !! 6%nat)
    = (Some "chr1gene", Some "A", Some "+") ∧
  Region.rid region_geneA = Region.rid region_chr1gene ∧
  read_input [line_geneA; line_chr1gene]
    = Ok [("chr1geneA+", [region_geneA; region_chr1gene])] ∧
  (∃ st, resolve false false [line_geneA; line_chr1gene] = Ok [("chr1geneA+", st)] ∧
         chosen st = [region_chr1gene]) ∧
  (∃ st, resolve false false [line_geneA] = Ok [("chr1geneA+", st)] ∧
         chosen st = [region_geneA]) ∧
  (∃ st, resolve false false [line_chr1gene] = Ok [("chr1geneA+", st)] ∧
         chosen st = [region_chr1gene]).
Proof.
  split_and!; try (vm_compute; reflexivity);
    eexists; split; vm_compute; reflexivity.
Qed.


(** * Further properties of the code *)

(** ** The engine *)

(** Induction along the recurrence that fills the table. *)
Lemma table_ind routes m T (P : nat → Sequence.t → Prop) :
  table_ok routes m T →
  P 0%nat S0 →
  (∀ r0, routes !! 0%nat = Some r0 → P 1%nat (S1 r0)) →
  (∀ i p sp r prev,
     (2 <= i <= m)%nat → pred_index routes i = Ok p → (p < i)%nat →
     routes !! (i - 1)%nat = Some r →
     T !! p = Some sp → T !! (i - 1)%nat = Some prev →
     P p sp → P (i - 1)%nat prev →
     P i (py_max prev (Sequence.add sp r))) →
  ∀ j s, T !! j = Some s → P j s.
Proof.
  intros (Hdom&H0&(r0&Hr0&H1)&Hrec) HP0 HP1 HPstep j.
  induction (lt_wf j) as [j _ IH]. intros s Hs.
  destruct j as [|[|j]].
  - rewrite H0 in Hs. by simplify_eq.
  - rewrite H1 in Hs. simplify_eq. by apply HP1.
  - assert (S (S j) <= m)%nat as Hjm by (apply Hdom; eauto).
    destruct (Hrec (S (S j))) as (p&sp&r&prev&Hp&Hlt&Hsp&Hr&Hprev&Hval); [lia|].
    rewrite Hs in Hval. simplify_eq.
    apply (HPstep (S (S j)) p sp r prev); auto with lia.
Qed.

Lemma dp_run_raises routes m e :
  (1 <= m <= length routes)%nat → dp_run routes m = Raise e → e = TypeError.
Proof.
  intros [Hm Hlen]. induction Hm as [|m Hm IH].
  - unfold dp_run, dp_init, getitem. simpl.
    destruct (lookup_lt_is_Some_2 routes 0%nat) as [r0 Hr0]; [lia|].
    by rewrite Hr0.
  - rewrite dp_run_succ by done.
    destruct (dp_run routes m) as [T|e'] eqn:HT; [|simpl; apply IH; lia].
    pose proof (dp_run_table_ok _ _ _ Hm HT) as (Hdom&_).
    destruct (lookup_lt_is_Some_2 routes m) as [r Hr]; [lia|].
    destruct (proj2 (Hdom m)) as [prev Hprev]; [lia|].
    unfold dp_step, pred_index, getitem, seq_getitem. simpl.
    rewrite Nat.sub_0_r, list_lookup_fmap, Hr, Hprev. simpl.
    destruct (T !! bisect_left _ _); simpl; congruence.
Qed.

Lemma get_partial_raises debug block e :
  get_partial debug block = Raise e →
  (block = [] ∧ e = IndexError) ∨ (block ≠ [] ∧ e = TypeError).
Proof.
  intros H. destruct block as [|r block].
  { left. vm_compute in H. by simplify_eq. }
  right. split; [done|].
  unfold get_partial, best_sequence, dp_table in H.
  set (routes := sort_by Region.finish (r :: block)) in *.
  assert (1 <= length routes)%nat as Hlen
    by (unfold routes; rewrite sort_by_length; simpl; lia).
  destruct (dp_run routes (length routes)) as [T|e'] eqn:HT; simpl in H.
  - pose proof (dp_run_table_ok _ _ _ Hlen HT) as (Hdom&_).
    destruct (proj2 (Hdom (length routes))) as [s Hs]; [lia|].
    unfold seq_getitem in H. by rewrite Hs in H.
  - simplify_eq. by eapply dp_run_raises.
Qed.

Lemma get_partial_raises_ill_formed debug block e :
  block ≠ [] → get_partial debug block = Raise e →
  e = TypeError ∧ Exists (λ r, Region.finish r < Region.start r) block.
Proof.
  intros Hne H. destruct (get_partial_raises _ _ _ H) as [[? _]|[_ ->]]; [done|].
  split; [done|].
  destruct (decide (Forall well_formed block)) as [Hwf|Hnwf].
  - destruct (get_partial_total debug block Hne Hwf) as [p Hp]. congruence.
  - apply not_Forall_Exists in Hnwf; [|apply _].
    eapply Exists_impl; [exact Hnwf|]. unfold well_formed. simpl. intros; lia.
Qed.

(** X1.  The engine fails in two ways only: with IndexError on an empty
    block, and with TypeError on a block that holds a region whose finish
    is below its start (the predecessor index then points at a table entry
    that does not exist yet). *)
Theorem get_partial_failures debug block e :
  get_partial debug block = Raise e →
  (block = [] ∧ e = IndexError) ∨
  (block ≠ [] ∧ e = TypeError ∧
   Exists (λ r, Region.finish r < Region.start r) block).
Proof.
  intros H. destruct (get_partial_raises _ _ _ H) as [?|[Hne ->]]; [by left|].
  right. split_and!; [done..|].
  by destruct (get_partial_raises_ill_formed _ _ _ Hne H).
Qed.

Lemma get_partial_failures_witness :
  (backwards_block = [] ∧ TypeError = IndexError) ∨
  (backwards_block ≠ [] ∧ TypeError = TypeError ∧
   Exists (λ r, Region.finish r < Region.start r) backwards_block).
Proof.
  apply (get_partial_failures false backwards_block TypeError).
  vm_compute. reflexivity.
Defined.

Lemma sorted_sublist {A : Type} (R : relation A) (l1 l2 : list A) :
  l1 `sublist_of` l2 → StronglySorted R l2 → StronglySorted R l1.
Proof.
  induction 1 as [|x l1 l2 Hs IH|x l1 l2 Hs IH]; [done|..].
  - intros [? Hx]%StronglySorted_inv. constructor; [auto|].
    rewrite Forall_forall in Hx |- *. intros y Hy. apply Hx.
    by eapply elem_of_sublist.
  - intros [? _]%StronglySorted_inv. auto.
Qed.

(** X2.  What the engine selects is a subsequence of the block sorted by
    finish: every selected region is a region of the block, none is taken
    twice, and the selection is listed (and printed) by ascending finish. *)
Theorem selection_is_subsequence_by_finish debug block p :
  get_partial debug block = Ok p →
  selected p `sublist_of` sort_by Region.finish block ∧
  StronglySorted (key_le Region.finish) (selected p) ∧
  selected p ⊆+ block.
Proof.
  intros (s&Hs&->&_)%get_partial_inv.
  destruct (best_sequence_feasible _ _ Hs) as (Hsub&_).
  rewrite take_ge in Hsub by (rewrite sort_by_length; lia).
  split_and!; [done| |].
  - eapply sorted_sublist; [exact Hsub|apply sort_by_sorted].
  - rewrite <-(sort_by_Permutation Region.finish block).
    by apply sublist_submseteq.
Qed.

Lemma selection_is_subsequence_by_finish_witness :
  ∃ p, get_partial false unsorted_group = Ok p ∧
       selected p `sublist_of` sort_by Region.finish unsorted_group ∧
       StronglySorted (key_le Region.finish) (selected p) ∧
       selected p ⊆+ unsorted_group.
Proof.
  destruct (get_partial_total false unsorted_group) as [p Hp];
    [discriminate|repeat constructor; unfold well_formed; simpl; lia|].
  exists p. split; [exact Hp|].
  apply (selection_is_subsequence_by_finish false unsorted_group p Hp).
Defined.

Lemma table_regs_nonempty routes m T :
  table_ok routes m T →
  ∀ j s, T !! j = Some s → (1 <= j)%nat → Sequence.regs s ≠ [].
Proof.
  intros Hok.
  apply (table_ind _ _ _ (λ j s, (1 <= j)%nat → Sequence.regs s ≠ []) Hok).
  - lia.
  - done.
  - intros i q sp r prev Hi _ _ _ _ _ _ Hprev _.
    unfold py_max. destruct (Sequence.gt _ _); simpl.
    + by destruct (Sequence.regs sp).
    + apply Hprev. lia.
Qed.

(** X3.  Whenever the engine returns, it has selected at least one region:
    the earliest-finishing region opens the table and every later entry
    either keeps the entry before it or adds a region. *)
Theorem selection_is_never_empty debug block p :
  get_partial debug block = Ok p → selected p ≠ [].
Proof.
  intros (s&(T&HT&Hs)%best_sequence_inv&->&_)%get_partial_inv.
  destruct (dp_table_inv _ _ HT) as (Hlen&Hok).
  by apply (table_regs_nonempty _ _ _ Hok _ _ Hs).
Qed.

Lemma selection_is_never_empty_witness :
  ∃ p, get_partial false [negative_region] = Ok p ∧ selected p ≠ [].
Proof.
  exists (mkPartial [negative_region] [Region.line negative_region] (-5) 0).
  assert (get_partial false [negative_region]
          = Ok (mkPartial [negative_region] [Region.line negative_region] (-5) 0))
    as Hp by reflexivity.
  split; [exact Hp|].
  apply (selection_is_never_empty false [negative_region] _ Hp).
Defined.

(** X4.  Every Sequence of the table records in [finish] the finish of the
    region it selected last, and 0 when it holds no region. *)
Theorem sequence_finish_is_last_finish block T j s :
  dp_table block = Ok T → T !! j = Some s →
  Sequence.finish s = default 0 (Region.finish <$> last (Sequence.regs s)).
Proof.
  intros HT Hs. destruct (dp_table_inv _ _ HT) as (_&Hok).
  revert j s Hs.
  apply (table_ind _ _ _
           (λ _ s, Sequence.finish s
                   = default 0 (Region.finish <$> last (Sequence.regs s))) Hok).
  - done.
  - done.
  - intros i q sp r prev _ _ _ _ _ _ _ Hprev.
    unfold py_max. destruct (Sequence.gt _ _); simpl; [|done].
    by rewrite last_snoc.
Qed.

Lemma sequence_finish_is_last_finish_witness :
  Sequence.finish (S1 touching_first)
  = default 0 (Region.finish <$> last (Sequence.regs (S1 touching_first))).
Proof.
  apply (sequence_finish_is_last_finish touching_block touching_table 2
           (S1 touching_first)).
  - vm_compute. reflexivity.
  - vm_compute. reflexivity.
Defined.

Lemma pairwise_lookup {A : Type} (R : A → A → Prop) (l : list A) :
  pairwise R l ↔
  ∀ i j a b, (i < j)%nat → l !! i = Some a → l !! j = Some b → R a b.
Proof.
  induction l as [|x l IH]; simpl.
  - split; [|done]. intros _ i j a b _ Hi. by rewrite lookup_nil in Hi.
  - rewrite IH, Forall_lookup. split.
    + intros [Hx Hl] i j a b Hij Hi Hj.
      destruct j as [|j]; [lia|]. destruct i as [|i]; simpl in *.
      * simplify_eq. by eapply Hx.
      * eapply (Hl i j); eauto with lia.
    + intros H. split.
      * intros j b Hj. by apply (H 0%nat (S j) x b); [lia|..].
      * intros i j a b Hij Hi Hj. apply (H (S i) (S j)); auto with lia.
Qed.

(** Regions sorted by finish that share no coordinate follow one another. *)
Lemma sorted_apart_chain routes :
  StronglySorted (key_le Region.finish) routes → Forall well_formed routes →
  pairwise apart routes → pairwise before routes.
Proof.
  intros Hs Hwf Hap. apply pairwise_lookup. intros i j a b Hij Ha Hb.
  eapply (apart_earlier_before routes Hs Hwf i j); eauto with lia.
  by eapply (proj1 (pairwise_lookup apart routes) Hap i j).
Qed.

Lemma chain_sorted routes :
  pairwise before routes → Forall well_formed routes →
  StronglySorted (key_le Region.finish) routes.
Proof.
  induction routes as [|a routes IH]; simpl; [constructor|].
  intros [Ha Hpw] [Hwa Hwf]%Forall_cons. constructor; [auto|].
  rewrite Forall_forall in Ha, Hwf |- *. intros b Hb.
  specialize (Ha b Hb). specialize (Hwf b Hb).
  unfold key_le, before, well_formed in *. lia.
Qed.

(** In a chain the predecessor of a region is the region just before it. *)
Lemma chain_pred_index routes i r :
  pairwise before routes → Forall well_formed routes →
  (1 <= i)%nat → routes !! (i - 1)%nat = Some r →
  bisect_left (Region.finish <$> routes) (Region.start r) = (i - 1)%nat.
Proof.
  intros Hpw Hwf Hi Hr.
  pose proof (proj1 (pairwise_lookup before routes) Hpw) as Hlk.
  apply bisect_left_unique.
  - by apply chain_sorted.
  - apply lookup_lt_Some in Hr. lia.
  - apply Forall_lookup. intros k a [Hk Hlt]%lookup_take_Some.
    by apply (Hlk k (i - 1)%nat a r).
  - apply Forall_lookup. intros k a Hk. rewrite lookup_drop in Hk.
    rewrite Forall_lookup in Hwf.
    pose proof (Hwf _ _ Hr) as Hwr. pose proof (Hwf _ _ Hk) as Hwa.
    destruct k as [|k].
    + rewrite Nat.add_0_r in Hk. simplify_eq. exact Hwr.
    + assert (before r a) by (apply (Hlk (i - 1)%nat (i - 1 + S k)%nat r a); auto with lia).
      unfold before, well_formed in *. lia.
Qed.

Lemma chain_table routes m T :
  pairwise before routes → Forall well_formed routes →
  Forall (λ r, 0 < Region.weight r) routes →
  table_ok routes m T → (m <= length routes)%nat →
  ∀ j, (1 <= j <= m)%nat →
       ∃ s, T !! j = Some s ∧ Sequence.regs s = take j routes ∧
            Sequence.weight s = total_weight (take j routes).
Proof.
  intros Hpw Hwf Hpos (Hdom&H0&(r0&Hr0&H1)&Hrec) Hm j [Hj Hjm].
  induction Hj as [|j Hj IH].
  - exists (S1 r0). rewrite (take_S_r _ _ _ Hr0). simpl. split_and!; [done..|lia].
  - destruct IH as (prev&Hprev&Hregs&Hw); [lia|].
    destruct (Hrec (S j)) as (p&sp&r&prev'&Hp&Hlt&Hsp&Hr&Hprev'&Hval); [lia|].
    simpl in Hr, Hprev'. rewrite Nat.sub_0_r in Hr, Hprev'.
    assert (prev' = prev) as -> by congruence.
    assert (routes !! (S j - 1)%nat = Some r) as Hr'
      by (simpl; by rewrite Nat.sub_0_r).
    rewrite (pred_index_Ok routes (S j) r Hr') in Hp.
    rewrite (chain_pred_index routes (S j) r Hpw Hwf ltac:(lia) Hr') in Hp.
    simpl in Hp. rewrite Nat.sub_0_r in Hp.
    assert (p = j) as -> by congruence.
    assert (sp = prev) as -> by congruence.
    eexists. split; [exact Hval|].
    assert (0 < Region.weight r) as Hwr.
    { rewrite Forall_lookup in Hpos. by eapply Hpos. }
    unfold py_max, Sequence.gt. simpl.
    destruct (Z.ltb_spec (Sequence.weight prev)
                         (Sequence.weight prev + Region.weight r)); [|lia].
    simpl. rewrite (take_S_r _ _ _ Hr), total_weight_app, Hregs, Hw. simpl.
    split; [done|lia].
Qed.

Lemma chain_selected_whole debug routes :
  routes ≠ [] → pairwise before routes → Forall well_formed routes →
  Forall (λ r, 0 < Region.weight r) routes →
  ∃ p, get_partial debug routes = Ok p ∧ selected p = routes ∧
       top_weight_tmp p = total_weight routes.
Proof.
  intros Hne Hpw Hwf Hpos.
  destruct (get_partial_total debug routes Hne Hwf) as [p Hp]. exists p.
  split; [done|].
  apply get_partial_inv in Hp as (s&(T&HT&Hs)%best_sequence_inv&->&->&_).
  destruct (dp_table_inv _ _ HT) as (Hlen&Hok).
  rewrite (sort_by_sorted_id Region.finish routes (chain_sorted _ Hpw Hwf)) in Hok.
  destruct (chain_table routes (length routes) T Hpw Hwf Hpos Hok ltac:(lia)
              (length routes) ltac:(lia)) as (s'&Hs'&Hregs&Hw).
  assert (s' = s) as -> by congruence.
  rewrite take_ge in Hregs, Hw by lia. done.
Qed.

(** X5.  When no two regions of a block share a coordinate and every
    weight is strictly positive (start <= finish throughout), the engine
    selects every region of the block, in finish order, and returns the sum
    of all the weights. *)
Theorem disjoint_positive_block_selected_whole debug block :
  block ≠ [] → pairwise apart block → Forall well_formed block →
  Forall (λ r, 0 < Region.weight r) block →
  ∃ p, get_partial debug block = Ok p ∧
       selected p = sort_by Region.finish block ∧
       top_weight_tmp p = total_weight block.
Proof.
  intros Hne Hap Hwf Hpos.
  pose proof (sort_by_Permutation Region.finish block) as Hperm.
  set (routes := sort_by Region.finish block) in *.
  assert (Forall well_formed routes) as Hwf' by by rewrite Hperm.
  assert (pairwise before routes) as Hchain.
  { apply sorted_apart_chain; [apply sort_by_sorted|done|].
    symmetry in Hperm. by eapply pairwise_Permutation; [apply _|exact Hperm|]. }
  destruct (chain_selected_whole debug routes) as (p&Hp&Hsel&Hw);
    [|done..|by rewrite Hperm|].
  { intros E. rewrite E in Hperm. by apply Permutation_nil_l in Hperm. }
  exists p. rewrite <-(total_weight_Permutation _ _ Hperm). split_and!; [|done..].
  unfold get_partial, best_sequence, dp_table in *.
  by rewrite (sort_by_sorted_id Region.finish routes (sort_by_sorted _ _)) in Hp.
Qed.

Lemma disjoint_positive_block_selected_whole_witness :
  ∃ p, get_partial false chain_block = Ok p ∧
       selected p = sort_by Region.finish chain_block ∧
       top_weight_tmp p = total_weight chain_block.
Proof.
  apply (disjoint_positive_block_selected_whole false chain_block).
  - discriminate.
  - simpl. split; [|split; [constructor|done]].
    constructor; [|constructor]. right. unfold before. simpl. lia.
  - repeat constructor; unfold well_formed; simpl; lia.
  - repeat constructor; simpl; lia.
Defined.

(** X6.  The engine leaves its own answer alone: run again on the regions
    it selected from a block of regions with start <= finish and positive
    selected weights, it selects all of them, in the same order and with
    the same weight. *)
Theorem selection_is_fixed_point debug block p :
  get_partial debug block = Ok p →
  Forall well_formed block →
  Forall (λ r, 0 < Region.weight r) (selected p) →
  ∃ p', get_partial debug (selected p) = Ok p' ∧
        selected p' = selected p ∧ top_weight_tmp p' = top_weight_tmp p ∧
        printed p' = printed p ∧ tmp_count p' = tmp_count p.
Proof.
  intros Hp Hwf Hpos.
  destruct (get_partial_selected _ _ _ Hp) as [Hchain Hin].
  destruct (get_partial_printed _ _ _ Hp) as [Hpr Hcnt].
  assert (Forall well_formed (selected p)) as Hwf'.
  { rewrite Forall_forall in Hwf |- *. auto. }
  assert (selected p ≠ []) as Hne.
  { apply get_partial_inv in Hp as (s&(T&HT&Hs)%best_sequence_inv&->&_).
    destruct (dp_table_inv _ _ HT) as (Hlen&Hok).
    by apply (table_regs_nonempty _ _ _ Hok _ _ Hs). }
  destruct (chain_selected_whole debug (selected p) Hne Hchain Hwf' Hpos)
    as (p'&Hp'&Hsel&Hw).
  destruct (get_partial_printed _ _ _ Hp') as [Hpr' Hcnt'].
  exists p'. split_and!; [done..| | |].
  - rewrite Hw. apply get_partial_inv in Hp as (s&Hs&->&->&_).
    by destruct (best_sequence_feasible _ _ Hs) as (_&_&->).
  - by rewrite Hpr, Hpr', Hsel.
  - by rewrite Hcnt, Hcnt', Hsel.
Qed.

Lemma selection_is_fixed_point_witness :
  ∃ p p', get_partial false unsorted_group = Ok p ∧
          get_partial false (selected p) = Ok p' ∧
          selected p' = selected p ∧ top_weight_tmp p' = top_weight_tmp p.
Proof.
  destruct (get_partial_total false unsorted_group) as [p Hp];
    [discriminate|repeat constructor; unfold well_formed; simpl; lia|].
  destruct (selection_is_fixed_point false unsorted_group p Hp)
    as (p'&Hp'&Hsel&Hw&_).
  - repeat constructor; unfold well_formed; simpl; lia.
  - destruct (get_partial_selected _ _ _ Hp) as [_ Hin].
    apply Forall_forall. intros r Hr. specialize (Hin r Hr).
    repeat (apply elem_of_cons in Hin as [->|Hin]; [simpl; lia|]).
    by apply elem_of_nil in Hin.
  - exists p, p'. done.
Defined.

(** ** The loop over a group *)

(** An invariant of the state and of the regions still to come holds at
    the end of the loop when a flush and a plain append both keep it. *)
Lemma group_loop_ind engine (I : group_state → list Region.t → Prop) :
  (∀ s region rest p,
     I s (region :: rest) → sequences s ≠ [] →
     most_far s < Region.start region → engine (sequences s) = Ok p →
     I (mkState [region]
                (top_weight s + top_weight_tmp p)
                (Z.max (Region.finish region) (most_far s))
                (count s + tmp_count p)
                (chosen s ++ selected p)
                (output s ++ printed p)) rest) →
  (∀ s region rest,
     I s (region :: rest) →
     I (mkState (sequences s ++ [region])
                (top_weight s)
                (Z.max (Region.finish region) (most_far s))
                (count s) (chosen s) (output s)) rest) →
  ∀ rest s s',
    I s rest → foldl (group_step engine) (Ok s) rest = Ok s' → I s' [].
Proof.
  intros Hflush Hkeep. induction rest as [|region rest IH]; intros s s' HI Hrun;
    cbn [foldl] in Hrun.
  - by simplify_eq.
  - destruct (group_step engine (Ok s) region) as [s1|e] eqn:Hs1;
      [|by rewrite foldl_group_step_Raise in Hrun].
    apply (IH s1 s'); [|done].
    apply group_step_inv in Hs1 as [(Hne&Hfar&p&Hp&->)|(_&->)]; eauto.
Qed.

Lemma group_step_raises engine s region e :
  group_step engine (Ok s) region = Raise e →
  sequences s ≠ [] ∧ engine (sequences s) = Raise e.
Proof.
  unfold group_step, call_engine. simpl.
  destruct (Nat.ltb_spec 0 (length (sequences s))) as [Hlen|Hlen]; simpl; [|done].
  destruct (most_far s <? Region.start region); simpl; [|done].
  destruct (engine (sequences s)) as [p|e'] eqn:Hp; simpl; [done|].
  intros [= ->]. split; [|done]. intros E. rewrite E in Hlen. simpl in Hlen. lia.
Qed.

(** X7.  The totals of a group are those of its selection: the weight
    reported for the group is the sum of the weights of the regions
    selected in its blocks; in standard mode the lines printed are the
    original lines of exactly these regions, in order, and the count stays
    0; in debug mode nothing is printed and the count is their number. *)
Theorem group_totals_match_selection debug is_sorted group st :
  resolve_group debug is_sorted group = Ok st →
  top_weight st = total_weight (chosen st) ∧
  output st = (if debug then [] else Region.line <$> chosen st) ∧
  count st = (if debug then length (chosen st) else 0%nat).
Proof.
  unfold resolve_group, resolve_group_with. intros Hrun.
  apply rbind_Ok in Hrun as (s&Hloop&Hlast).
  set (I := λ (s : group_state) (_ : list Region.t),
         top_weight s = total_weight (chosen s) ∧
         output s = (if debug then [] else Region.line <$> chosen s) ∧
         count s = (if debug then length (chosen s) else 0%nat)).
  assert (∀ s p, I s [] → get_partial debug (sequences s) = Ok p →
            top_weight s + top_weight_tmp p = total_weight (chosen s ++ selected p) ∧
            output s ++ printed p
            = (if debug then [] else Region.line <$> chosen s ++ selected p) ∧
            (count s + tmp_count p)%nat
            = (if debug then length (chosen s ++ selected p) else 0%nat)) as Hadd.
  { intros s0 p (Hw&Hout&Hcnt) Hp.
    destruct (get_partial_printed _ _ _ Hp) as [Hpr Hc].
    apply get_partial_inv in Hp as (b&Hb&Hsel&Htw&_).
    destruct (best_sequence_feasible _ _ Hb) as (_&_&Hsum).
    rewrite total_weight_app, Hw, Htw, Hsum, Hsel, Hout, Hcnt, Hpr, Hc, Hsel.
    split_and!; [done|..]; destruct debug; simpl;
      rewrite ?fmap_app, ?length_app; done. }
  assert (I s []) as HI.
  { eapply (group_loop_ind (get_partial debug) I); [..|exact Hloop].
    - intros s0 region rest p HI0 _ _ Hp. by apply (Hadd s0 p).
    - intros s0 region rest HI0. exact HI0.
    - by destruct debug. }
  apply call_engine_inv in Hlast as (p&Hp&->). simpl. by apply (Hadd s p).
Qed.

Lemma group_totals_match_selection_witness :
  ∃ st, resolve_group false false unsorted_group = Ok st ∧
        top_weight st = total_weight (chosen st) ∧
        output st = Region.line <$> chosen st ∧ count st = 0%nat.
Proof.
  assert (∃ st, resolve_group false false unsorted_group = Ok st) as [st Hst]
    by (eexists; vm_compute; reflexivity).
  exists st. split; [exact Hst|].
  apply (group_totals_match_selection false false unsorted_group st Hst).
Defined.

(** X8.  The regions selected for a group are regions of the group, each
    taken at most as often as it occurs there: no record is invented and
    none is emitted twice. *)
Theorem group_selection_within_group debug is_sorted group st :
  resolve_group debug is_sorted group = Ok st → chosen st ⊆+ group.
Proof.
  unfold resolve_group, resolve_group_with. intros Hrun.
  set (data := if is_sorted then group else sort_by Region.start group) in *.
  assert (data ≡ₚ group) as Hperm.
  { unfold data. destruct is_sorted; [done|apply sort_by_Permutation]. }
  apply rbind_Ok in Hrun as (s&Hloop&Hlast).
  set (I := λ (s : group_state) (rest : list Region.t),
         ∃ done, chosen s ⊆+ done ∧ done ++ sequences s ++ rest = data).
  assert (∀ block p, get_partial debug block = Ok p → selected p ⊆+ block)
    as Hsel.
  { intros block p (b&Hb&->&_)%get_partial_inv.
    destruct (best_sequence_feasible _ _ Hb) as (Hsub&_).
    rewrite <-(sort_by_Permutation Region.finish block).
    apply sublist_submseteq. etrans; [exact Hsub|apply sublist_take]. }
  assert (I s []) as (done&Hch&Hdata).
  { eapply (group_loop_ind (get_partial debug) I); [..|exact Hloop].
    - intros s0 region rest p (done&Hch&Hd) _ _ Hp.
      exists (done ++ sequences s0). simpl. split.
      + apply submseteq_app; [done|by apply Hsel].
      + by rewrite <-app_assoc.
    - intros s0 region rest (done&Hch&Hd). exists done. simpl.
      split; [done|]. by rewrite <-app_assoc.
    - exists []. split; [done|]. done. }
  apply call_engine_inv in Hlast as (p&Hp&->). simpl.
  rewrite <-Hperm, <-Hdata, app_nil_r.
  apply submseteq_app; [done|by apply Hsel].
Qed.

Lemma group_selection_within_group_witness :
  ∃ st, resolve_group false true unsorted_group = Ok st ∧
        chosen st ⊆+ unsorted_group.
Proof.
  assert (∃ st, resolve_group false true unsorted_group = Ok st) as [st Hst]
    by (eexists; vm_compute; reflexivity).
  exists st. split; [exact Hst|].
  apply (group_selection_within_group false true unsorted_group st Hst).
Defined.

Lemma group_loop_raises debug data e :
  ∀ rest s,
    sequences s ⊆ data → rest ⊆ data → sequences s ≠ [] ∨ rest ≠ [] →
    rbind (foldl (group_step (get_partial debug)) (Ok s) rest)
          (call_engine (get_partial debug)) = Raise e →
    e = TypeError ∧ Exists (λ r, Region.finish r < Region.start r) data.
Proof.
  assert (∀ block, block ≠ [] → block ⊆ data →
            get_partial debug block = Raise e →
            e = TypeError ∧ Exists (λ r, Region.finish r < Region.start r) data)
    as Hblock.
  { intros block Hne Hsub H.
    destruct (get_partial_raises_ill_formed _ _ _ Hne H) as [-> Hex].
    split; [done|]. rewrite Exists_exists in Hex |- *.
    destruct Hex as (r&Hr&?). exists r. split; [by apply Hsub|done]. }
  induction rest as [|region rest IH]; intros s Hs Hrest Hne; cbn [foldl rbind].
  - intros H. destruct Hne as [Hne|?]; [|done].
    apply (Hblock (sequences s)); [done..|].
    unfold call_engine in H.
    destruct (get_partial debug (sequences s)); simpl in H; [done|congruence].
  - destruct (group_step (get_partial debug) (Ok s) region) as [s1|e'] eqn:Hs1.
    + apply IH.
      * apply group_step_inv in Hs1 as [(_&_&p&_&->)|(_&->)]; simpl.
        -- intros a ->%list_elem_of_singleton. apply Hrest. by left.
        -- intros a [?| ->%list_elem_of_singleton]%elem_of_app; [by apply Hs|].
           apply Hrest. by left.
      * intros a Ha. apply Hrest. by right.
      * left. apply group_step_inv in Hs1 as [(_&_&p&_&->)|(_&->)]; simpl; [done|].
        by destruct (sequences s).
    + rewrite foldl_group_step_Raise. simpl. intros [= ->].
      apply group_step_raises in Hs1 as [Hne' Hraise]. by apply (Hblock (sequences s)).
Qed.

(** X9.  Resolving a group fails in two ways only: with IndexError on a
    group without regions, and with TypeError on a group that holds a
    region whose finish is below its start.  A non-empty group of regions
    with start <= finish is always resolved, sorted or not, with the flag
    or without it. *)
Theorem resolve_group_failures debug is_sorted group :
  (∀ e, resolve_group debug is_sorted group = Raise e →
        (group = [] ∧ e = IndexError) ∨
        (group ≠ [] ∧ e = TypeError ∧
         Exists (λ r, Region.finish r < Region.start r) group)) ∧
  (group ≠ [] → Forall well_formed group →
   ∃ st, resolve_group debug is_sorted group = Ok st).
Proof.
  assert (∀ e, resolve_group debug is_sorted group = Raise e →
            (group = [] ∧ e = IndexError) ∨
            (group ≠ [] ∧ e = TypeError ∧
             Exists (λ r, Region.finish r < Region.start r) group)) as Hfail.
  { intros e H. destruct group as [|r group].
    { left. split; [done|]. destruct is_sorted; vm_compute in H; by simplify_eq. }
    right. split; [done|].
    unfold resolve_group, resolve_group_with in H.
    set (data := if is_sorted then r :: group else sort_by Region.start (r :: group))
      in *.
    assert (data ≡ₚ r :: group) as Hperm.
    { unfold data. destruct is_sorted; [done|apply sort_by_Permutation]. }
    rewrite <-Hperm.
    apply (group_loop_raises debug data e data (mkState [] 0 0 0%nat [] []));
      simpl; [set_solver|done| |done].
    right. intros E. rewrite E in Hperm. by apply Permutation_nil_l in Hperm. }
  split; [done|]. intros Hne Hwf.
  destruct (resolve_group debug is_sorted group) as [st|e] eqn:H; [eauto|].
  destruct (Hfail e eq_refl) as [[? _]|(_&_&Hex)]; [done|].
  rewrite Exists_exists in Hex. destruct Hex as (r&Hr&Hlt).
  rewrite Forall_forall in Hwf. specialize (Hwf r Hr).
  unfold well_formed in Hwf. lia.
Qed.

(** X10.  On a group that is sorted by start the pre-sorted flag changes
    nothing: the sort it skips would leave the group as it is. *)
Theorem sorted_group_ignores_flag debug group :
  StronglySorted (key_le Region.start) group →
  resolve_group debug true group = resolve_group debug false group.
Proof.
  intros Hs. unfold resolve_group, resolve_group_with.
  by rewrite (sort_by_sorted_id Region.start group Hs).
Qed.

Lemma sorted_group_ignores_flag_witness :
  resolve_group false true touching_block = resolve_group false false touching_block.
Proof.
  apply (sorted_group_ignores_flag false touching_block).
  repeat constructor; unfold key_le; simpl; lia.
Defined.

Lemma resolve_group_failures_witness :
  (backwards_group = [] ∧ TypeError = IndexError) ∨
  (backwards_group ≠ [] ∧ TypeError = TypeError ∧
   Exists (λ r, Region.finish r < Region.start r) backwards_group).
Proof.
  apply (proj1 (resolve_group_failures false true backwards_group) TypeError).
  vm_compute. reflexivity.
Defined.

(** ** Reading the file *)

Lemma read_step_Raise e line : read_step (Raise e) line = Raise e.
Proof. done. Qed.

Lemma foldl_read_step_Raise e file : foldl read_step (Raise e) file = Raise e.
Proof. induction file; simpl; auto. Qed.

Lemma read_step_skipped st line : skipped line = true → read_step st line = st.
Proof.
  intros H. destruct st as [data|e]; [|done].
  unfold read_step, skipped in *. simpl. by rewrite H.
Qed.

Lemma read_input_snoc file line :
  read_input (file ++ [line]) = read_step (read_input file) line.
Proof. unfold read_input. by rewrite foldl_app. Qed.

Lemma read_step_record data line :
  skipped line = false →
  read_step (Ok data) line
  = rbind (Region.init line) (λ f, Ok (dict_append data (Region.rid f) f)).
Proof. intros H. unfold read_step, skipped in *. simpl. by rewrite H. Qed.

(** X11.  Lines shorter than two characters and lines that begin with the
    comment mark take no part in the reading: the result, groups or
    exception, is that of the file without them. *)
Theorem read_input_ignores_skipped_lines file :
  read_input file = read_input (filter (λ line, skipped line = false) file).
Proof.
  induction file as [|line file IH] using rev_ind; [done|].
  rewrite filter_app, read_input_snoc, IH.
  destruct (skipped line) eqn:Hskip.
  - rewrite read_step_skipped by done.
    rewrite filter_cons_False by (rewrite Hskip; done).
    by rewrite filter_nil, app_nil_r.
  - rewrite filter_cons_True by done. by rewrite filter_nil, read_input_snoc.
Qed.

Lemma dict_get_None {B : Type} (data : list (string * B)) k :
  dict_get data k = None ↔ k ∉ data.*1.
Proof.
  induction data as [|[k' v] data IH]; simpl.
  - split; [|done]. intros _ H. by apply elem_of_nil in H.
  - rewrite not_elem_of_cons. destruct (String.eqb_spec k' k) as [->|Hne].
    + split; [done|]. by intros [? _].
    + rewrite IH. split; [|by intros [_ ?]]. intros ?. split; [congruence|done].
Qed.

Lemma dict_get_append data k f k' :
  dict_get (dict_append data k f) k'
  = if decide (k = k') then Some (default [] (dict_get data k) ++ [f])
    else dict_get data k'.
Proof.
  induction data as [|[k0 l] data IH]; simpl.
  - destruct (String.eqb_spec k k'); case_decide; done.
  - destruct (String.eqb_spec k0 k) as [->|Hne]; simpl.
    + destruct (String.eqb_spec k k'); case_decide; done.
    + destruct (String.eqb_spec k0 k') as [->|Hne'].
      * case_decide; [congruence|done].
      * exact IH.
Qed.

Lemma dict_append_keys data k f :
  (dict_append data k f).*1
  = match dict_get data k with
    | Some _ => data.*1
    | None => data.*1 ++ [k]
    end.
Proof.
  induction data as [|[k0 l] data IH]; cbn [dict_append dict_get]; [done|].
  destruct (String.eqb_spec k0 k) as [->|Hne]; [done|].
  rewrite !fmap_cons, IH. by destruct (dict_get data k).
Qed.

(** What the dict holds after the reading: under every key, in file order,
    the regions of the records that carry this key. *)
Lemma read_input_groups file data :
  read_input file = Ok data →
  ∃ regions,
    Forall2 (λ line r, Region.init line = Ok r)
            (filter (λ line, skipped line = false) file) regions ∧
    NoDup data.*1 ∧
    ∀ k, dict_get data k
         = group_or_absent (filter (λ r, Region.rid r = k) regions).
Proof.
  revert data. induction file as [|line file IH] using rev_ind; intros data.
  - intros [= <-]. exists []. split_and!; [constructor|constructor|done].
  - rewrite read_input_snoc, filter_app.
    destruct (read_input file) as [data0|e] eqn:Hfile; [|done].
    destruct (IH data0 eq_refl) as (regions&Hparse&Hnodup&Hget).
    destruct (skipped line) eqn:Hskip.
    + rewrite read_step_skipped by done. intros [= <-]. exists regions.
      rewrite filter_cons_False by (rewrite Hskip; done).
      by rewrite filter_nil, app_nil_r.
    + rewrite read_step_record by done.
      intros (f&Hf&[= <-])%rbind_Ok. exists (regions ++ [f]).
      rewrite filter_cons_True by done. rewrite filter_nil. split_and!.
      * apply Forall2_app; [done|]. by repeat constructor.
      * rewrite dict_append_keys.
        destruct (dict_get data0 (Region.rid f)) eqn:Hk; [done|].
        apply dict_get_None in Hk. apply NoDup_app. split_and!; [done| |].
        -- intros k Hin ->%list_elem_of_singleton. done.
        -- apply NoDup_singleton.
      * intros k. rewrite dict_get_append, filter_app, Hget.
        case_decide as Hk.
        -- subst k. rewrite filter_cons_True by done. rewrite filter_nil.
           by destruct (filter _ regions).
        -- rewrite filter_cons_False by done. by rewrite filter_nil, app_nil_r.
Qed.

Lemma dict_get_elem_of {B : Type} (data : list (string * B)) k v :
  NoDup data.*1 → (k, v) ∈ data ↔ dict_get data k = Some v.
Proof.
  induction data as [|[k' v'] data IH]; simpl.
  - intros _. split; [|done]. intros H. by apply elem_of_nil in H.
  - intros [Hk' Hnd]%NoDup_cons. rewrite elem_of_cons.
    destruct (String.eqb_spec k' k) as [->|Hne].
    + split; [|intros [= ->]; by left].
      intros [[= ->]|Hin]; [done|]. exfalso. apply Hk'.
      apply list_elem_of_fmap. by exists (k, v).
    + rewrite <-(IH Hnd). split; [|auto]. intros [[= -> ->]|?]; done.
Qed.

(** X12.  The reading sorts the records into groups by key: the keys of
    the dict are distinct, and the group of a key holds exactly the regions
    of the records with this key, in the order of the file; so no group is
    empty and every region sits under its own key. *)
Theorem read_input_partitions_by_key file data :
  read_input file = Ok data →
  ∃ regions,
    Forall2 (λ line r, Region.init line = Ok r)
            (filter (λ line, skipped line = false) file) regions ∧
    NoDup data.*1 ∧
    (∀ k group, (k, group) ∈ data ↔
                group ≠ [] ∧ group = filter (λ r, Region.rid r = k) regions) ∧
    (∀ k group, (k, group) ∈ data → Forall (λ r, Region.rid r = k) group).
Proof.
  intros (regions&Hparse&Hnodup&Hget)%read_input_groups.
  exists regions. split_and!; [done..| |].
  - intros k group. rewrite (dict_get_elem_of _ _ _ Hnodup), Hget.
    destruct (filter _ regions) as [|r l]; simpl.
    + split; [done|]. by intros [? ->].
    + split; [by intros [= <-]|]. by intros [_ ->].
  - intros k group Hin. apply (dict_get_elem_of _ _ _ Hnodup) in Hin.
    rewrite Hget in Hin. destruct (filter _ regions) as [|r l] eqn:E; [done|].
    simpl in Hin. simplify_eq. rewrite <-E.
    apply Forall_forall. by intros r' [? _]%list_elem_of_filter.
Qed.

Lemma read_input_partitions_by_key_witness :
  ∃ data regions,
    read_input sample_file = Ok data ∧
    Forall2 (λ line r, Region.init line = Ok r)
            (filter (λ line, skipped line = false) sample_file) regions ∧
    NoDup data.*1 ∧
    (∀ k group, (k, group) ∈ data ↔
                group ≠ [] ∧ group = filter (λ r, Region.rid r = k) regions) ∧
    (∀ k group, (k, group) ∈ data → Forall (λ r, Region.rid r = k) group).
Proof.
  assert (∃ data, read_input sample_file = Ok data) as [data Hdata]
    by (eexists; vm_compute; reflexivity).
  destruct (read_input_partitions_by_key sample_file data Hdata) as (regions&H).
  exists data, regions. split; [exact Hdata|exact H].
Defined.

(** X13.  The reading raises exactly when a record that is not skipped
    cannot be built, and the exception is the one of the first such
    record: nothing after it is looked at. *)
Theorem read_input_raises_at_first_bad_record file e :
  read_input file = Raise e ↔
  ∃ before_it line after_it,
    file = before_it ++ line :: after_it ∧
    (∃ data, read_input before_it = Ok data) ∧
    skipped line = false ∧ Region.init line = Raise e.
Proof.
  split.
  - induction file as [|line file IH] using rev_ind; [done|].
    rewrite read_input_snoc.
    destruct (read_input file) as [data|e'] eqn:Hfile.
    + intros H. exists file, line, []. split_and!; [done|eauto| |].
      * destruct (skipped line) eqn:Hskip; [|done].
        by rewrite read_step_skipped in H.
      * destruct (skipped line) eqn:Hskip;
          [by rewrite read_step_skipped in H|].
        rewrite read_step_record in H by done.
        destruct (Region.init line); simpl in H; congruence.
    + rewrite read_step_Raise. intros [= ->].
      destruct (IH eq_refl) as (l1&bad&l2&->&Hok&Hskip&Hbad).
      exists l1, bad, (l2 ++ [line]). by rewrite <-app_assoc.
  - intros (l1&line&l2&->&[data Hdata]&Hskip&Hbad).
    unfold read_input in *. rewrite foldl_app, Hdata. cbn [foldl].
    rewrite read_step_record, Hbad by done. simpl.
    apply foldl_read_step_Raise.
Qed.

Lemma read_input_raises_at_first_bad_record_witness :
  read_input broken_file = Raise ValueError.
Proof.
  apply (read_input_raises_at_first_bad_record broken_file ValueError).
  exists ["# header"; line_geneA], "chr1 src gene 1 5 . + .", ["chr1 src gene"].
  split_and!; [reflexivity| |reflexivity|vm_compute; reflexivity].
  eexists. vm_compute. reflexivity.
Defined.

(** ** Records and keys *)

Lemma py_int_raises tok e : py_int tok = Raise e → e = ValueError.
Proof.
  unfold py_int.
  destruct (match tok with
            | String "-"%char s' => Z.opp <$> int_digits 0 false s'
            | String "+"%char s' => int_digits 0 false s'
            | _ => int_digits 0 false tok
            end); congruence.
Qed.

(** X14.  A record needs seven fields: with fewer the Region is refused
    with IndexError, whatever the fields hold; with seven or more the only
    failure left is ValueError, raised when field 4, 5 or 6 is not an
    integer. *)
Theorem region_init_failures line :
  (Region.init line = Raise IndexError ↔ (length (split line) < 7)%nat) ∧
  (∀ e, Region.init line = Raise e →
        e = IndexError ∨
        (e = ValueError ∧ (7 <= length (split line))%nat ∧
         ∃ i tok, (3 <= i <= 5)%nat ∧ split line !! i = Some tok ∧
                  py_int tok = Raise ValueError)).
Proof.
  unfold Region.init. generalize (split line). intros parts.
  destruct parts as [|p0 [|p1 [|p2 [|p3 [|p4 [|p5 [|p6 parts]]]]]]];
    try (split; [split; [simpl; lia|done]|intros e [= <-]; by left]).
  cbn [getitem lookup list_lookup rbind length].
  destruct (py_int p3) as [s|e3] eqn:H3; cbn [rbind].
  2:{ pose proof (py_int_raises _ _ H3) as ->. split.
      - split; [done|simpl; lia].
      - intros e [= <-]. right. split_and!; [done|simpl; lia|].
        exists 3%nat, p3. split_and!; [lia..|done|done]. }
  destruct (py_int p4) as [f|e4] eqn:H4; cbn [rbind].
  2:{ pose proof (py_int_raises _ _ H4) as ->. split.
      - split; [done|simpl; lia].
      - intros e [= <-]. right. split_and!; [done|simpl; lia|].
        exists 4%nat, p4. split_and!; [lia..|done|done]. }
  destruct (py_int p5) as [w|e5] eqn:H5; cbn [rbind].
  2:{ pose proof (py_int_raises _ _ H5) as ->. split.
      - split; [done|simpl; lia].
      - intros e [= <-]. right. split_and!; [done|simpl; lia|].
        exists 5%nat, p5. split_and!; [lia..|done|done]. }
  split; [split; [done|simpl; lia]|done].
Qed.

Lemma chars_append a b : chars (a +:+ b) = chars a ++ chars b.
Proof. induction a as [|c a IH]; simpl; [done|]. by rewrite IH. Qed.

Lemma split_from_tokens s :
  ∀ cur,
    (∀ tok, cur = Some tok →
            tok ≠ EmptyString ∧ Forall (λ c, is_space c = false) (chars tok)) →
    Forall (λ tok, tok ≠ EmptyString ∧
                   Forall (λ c, is_space c = false) (chars tok))
           (split_from cur s).
Proof.
  induction s as [|c s IH]; intros cur Hcur; cbn [split_from].
  - destruct cur as [tok|]; [|constructor]. repeat constructor; by apply Hcur.
  - destruct (is_space c) eqn:Hc.
    + destruct cur as [tok|]; [|by apply IH].
      constructor; [by apply Hcur|]. by apply IH.
    + apply IH. intros tok [= <-]. split.
      * by destruct (default EmptyString cur).
      * rewrite chars_append. apply Forall_app. split; [|by repeat constructor].
        destruct cur as [tok|]; [by apply Hcur|constructor].
Qed.

(** X15.  The group key of a Region is never empty and holds no white
    space: it is made of three tokens of [split], and a token is a
    non-empty run of characters that are not white space. *)
Theorem region_key_has_no_white_space line r :
  Region.init line = Ok r →
  Region.rid r ≠ EmptyString ∧
  Forall (λ c, is_space c = false) (chars (Region.rid r)) ∧
  Forall (λ tok, tok ≠ EmptyString ∧
                 Forall (λ c, is_space c = false) (chars tok)) (split line).
Proof.
  intros H.
  assert (Forall (λ tok, tok ≠ EmptyString ∧
                         Forall (λ c, is_space c = false) (chars tok))
                 (split line)) as Htok by (by apply split_from_tokens).
  unfold Region.init in H. inv_bind H. rewrite getitem_Ok in *. simplify_eq.
  simpl. rewrite Forall_lookup in Htok.
  destruct (Htok _ _ Ha) as [Hne0 Hs0]. destruct (Htok _ _ Ha0) as [_ Hs2].
  destruct (Htok _ _ Ha1) as [_ Hs6].
  split_and!.
  - by destruct a.
  - rewrite !chars_append. by rewrite !Forall_app.
  - by apply Forall_lookup.
Qed.

Lemma region_key_has_no_white_space_witness :
  Region.rid region_geneA ≠ EmptyString ∧
  Forall (λ c, is_space c = false) (chars (Region.rid region_geneA)) ∧
  Forall (λ tok, tok ≠ EmptyString ∧
                 Forall (λ c, is_space c = false) (chars tok)) (split line_geneA).
Proof.
  apply (region_key_has_no_white_space line_geneA region_geneA).
  vm_compute. reflexivity.
Defined.

Lemma region_init_line line r : Region.init line = Ok r → Region.line r = line.
Proof.
  unfold Region.init. intros H. inv_bind H. by simplify_eq.
Qed.

(** ** The whole run *)

Lemma resolve_groups_get debug is_sorted data res :
  resolve_groups debug is_sorted data = Ok res →
  ∀ k, match dict_get data k with
       | None => dict_get res k = None
       | Some group =>
           ∃ st, dict_get res k = Some st ∧
                 resolve_group debug is_sorted group = Ok st
       end.
Proof.
  revert res. induction data as [|[k0 g] data IH]; intros res;
    cbn [resolve_groups].
  - by intros [= <-] k.
  - intros (st&Hst&(rest&Hrest&[= <-])%rbind_Ok)%rbind_Ok k.
    cbn [dict_get]. destruct (k0 =? k)%string; [eauto|by apply IH].
Qed.

Lemma resolve_groups_elem debug is_sorted data res k st :
  resolve_groups debug is_sorted data = Ok res → (k, st) ∈ res →
  ∃ group, (k, group) ∈ data ∧ resolve_group debug is_sorted group = Ok st.
Proof.
  revert res. induction data as [|[k0 g] data IH]; intros res;
    cbn [resolve_groups].
  - intros [= <-] Hin. by apply elem_of_nil in Hin.
  - intros (st0&Hst&(rest&Hrest&[= <-])%rbind_Ok)%rbind_Ok.
    intros [[= -> ->]|Hin]%elem_of_cons.
    + exists g. split; [by left|done].
    + destruct (IH rest Hrest Hin) as (group&?&?). exists group.
      split; [by right|done].
Qed.

(** X16.  Groups are resolved one by one and independently: what the run
    reports under a key is the result of the group loop on the regions of
    the records with this key alone, in file order; records of other keys
    have no part in it, and a key without record is not reported. *)
Theorem resolve_treats_each_key_alone debug is_sorted file res :
  resolve debug is_sorted file = Ok res →
  ∃ regions,
    Forall2 (λ line r, Region.init line = Ok r)
            (filter (λ line, skipped line = false) file) regions ∧
    ∀ k, match filter (λ r, Region.rid r = k) regions with
         | [] => dict_get res k = None
         | group =>
             ∃ st, dict_get res k = Some st ∧
                   resolve_group debug is_sorted group = Ok st
         end.
Proof.
  unfold resolve. intros (data&Hdata&Hres)%rbind_Ok.
  destruct (read_input_groups _ _ Hdata) as (regions&Hparse&_&Hget).
  exists regions. split; [done|]. intros k.
  pose proof (resolve_groups_get _ _ _ _ Hres k) as Hk. rewrite Hget in Hk.
  by destruct (filter _ regions).
Qed.

Lemma resolve_treats_each_key_alone_witness :
  ∃ res regions,
    resolve false false sample_file = Ok res ∧
    Forall2 (λ line r, Region.init line = Ok r)
            (filter (λ line, skipped line = false) sample_file) regions ∧
    ∀ k, match filter (λ r, Region.rid r = k) regions with
         | [] => dict_get res k = None
         | group =>
             ∃ st, dict_get res k = Some st ∧
                   resolve_group false false group = Ok st
         end.
Proof.
  assert (∃ res, resolve false false sample_file = Ok res) as [res Hres]
    by (eexists; vm_compute; reflexivity).
  destruct (resolve_treats_each_key_alone false false sample_file res Hres)
    as (regions&H).
  exists res, regions. split; [exact Hres|exact H].
Defined.

Lemma group_output_from_group debug is_sorted group st :
  resolve_group debug is_sorted group = Ok st →
  ∀ l, l ∈ output st → ∃ r, r ∈ group ∧ l = Region.line r.
Proof.
  unfold resolve_group, resolve_group_with. intros Hrun.
  set (data := if is_sorted then group else sort_by Region.start group) in *.
  assert (data ≡ₚ group) as Hperm.
  { unfold data. destruct is_sorted; [done|apply sort_by_Permutation]. }
  apply rbind_Ok in Hrun as (s&Hloop&Hlast).
  set (I := λ (s : group_state) (rest : list Region.t),
         (∀ a, a ∈ sequences s ++ rest → a ∈ data) ∧
         (∀ l, l ∈ output s → ∃ r, r ∈ data ∧ l = Region.line r)).
  assert (∀ s p, I s [] → get_partial debug (sequences s) = Ok p →
            ∀ l, l ∈ output s ++ printed p → ∃ r, r ∈ data ∧ l = Region.line r)
    as Hadd.
  { intros s0 p [Hseq Hout] Hp l [Hl|Hl]%elem_of_app; [by apply Hout|].
    destruct (get_partial_printed _ _ _ Hp) as [Hpr _].
    destruct (get_partial_selected _ _ _ Hp) as [_ Hin].
    rewrite Hpr in Hl. destruct debug; [by apply elem_of_nil in Hl|].
    apply list_elem_of_fmap in Hl as (r&->&Hr). exists r. split; [|done].
    apply Hseq, elem_of_app. left. by apply Hin. }
  assert (I s []) as HI.
  { eapply (group_loop_ind (get_partial debug) I); [..|exact Hloop].
    - intros s0 region rest p [Hseq Hout] _ _ Hp. split; simpl.
      + intros a Ha. apply Hseq. rewrite elem_of_app. by right.
      + apply (Hadd s0 p); [|done]. split; [|done].
        intros a Ha. apply Hseq. rewrite elem_of_app in Ha |- *.
        destruct Ha as [?|Ha]; [by left|by apply elem_of_nil in Ha].
    - intros s0 region rest [Hseq Hout]. split; simpl; [|done].
      intros a Ha. apply Hseq. by rewrite <-app_assoc in Ha.
    - split; simpl; [done|]. intros l Hl. by apply elem_of_nil in Hl. }
  apply call_engine_inv in Hlast as (p&Hp&->). simpl. intros l Hl.
  destruct (Hadd s p HI Hp l Hl) as (r&Hr&->). exists r. by rewrite <-Hperm.
Qed.

(** X17.  Every line the run prints for a key is a line of the input file,
    unchanged, and it is a line of a record with this key. *)
Theorem printed_lines_are_input_lines debug is_sorted file res k st l :
  resolve debug is_sorted file = Ok res → (k, st) ∈ res → l ∈ output st →
  l ∈ file ∧ ∃ r, Region.init l = Ok r ∧ Region.rid r = k.
Proof.
  unfold resolve. intros (data&Hdata&Hres)%rbind_Ok Hin Hl.
  destruct (resolve_groups_elem _ _ _ _ _ _ Hres Hin) as (group&Hgroup&Hst).
  destruct (group_output_from_group _ _ _ _ Hst l Hl) as (r&Hr&->).
  destruct (read_input_groups _ _ Hdata) as (regions&Hparse&Hnodup&Hget).
  apply (dict_get_elem_of _ _ _ Hnodup) in Hgroup. rewrite Hget in Hgroup.
  assert (r ∈ filter (λ r, Region.rid r = k) regions) as Hrin.
  { destruct (filter _ regions); [done|]. simpl in Hgroup. by simplify_eq. }
  apply list_elem_of_filter in Hrin as [Hk Hrin].
  apply list_elem_of_lookup in Hrin as [i Hi].
  destruct (Forall2_lookup_r _ _ _ _ _ Hparse Hi) as (line&Hline&Hinit).
  assert (Region.line r = line) as ->.
  { apply region_init_line in Hinit. done. }
  split; [|eauto].
  apply list_elem_of_lookup_2 in Hline. by apply list_elem_of_filter in Hline as [_ ?].
Qed.

Lemma printed_lines_are_input_lines_witness :
  line_chr1gene ∈ sample_file ∧
  ∃ r, Region.init line_chr1gene = Ok r ∧ Region.rid r = "chr1geneA+".
Proof.
  assert (∃ st st2,
            resolve false false sample_file
            = Ok [("chr1geneA+", st); ("chr2gene+", st2)] ∧
            output st = [line_chr1gene]) as (st&st2&Hres&Hout)
    by (eexists _, _; split; vm_compute; reflexivity).
  apply (printed_lines_are_input_lines false false sample_file _
           "chr1geneA+" st line_chr1gene Hres).
  - by left.
  - rewrite Hout. by left.
Defined.
